(** * query_builder.select: the Select query builder

    A shallow embedding of [src/query_builder/select.py].  The class
    [Select] is a mutable builder: every mutator assigns one attribute of
    [self] and returns [self]; [to_sql] and [get_params] read the attributes
    and compose a [psycopg2.sql] object.  The methods are embedded as
    computations in a small state-and-exception monad over the attributes
    of [self].

    The file is organised as the imports of [select.py] are:
    - [Psycopg2]: the part of [psycopg2.sql] that the builder uses
      ([SQL], [Identifier], [Literal], [Placeholder], [Composed], [format],
      [join], [+], [as_string]);
    - [WhereTree], [JoinSpec], [Utilities]: the collaborators
      [query_builder.where], [query_builder.join] and
      [query_builder.utilities];
    - the class [Select] itself, followed by the theorems. *)

From Stdlib Require Import String Ascii List ZArith Bool Lia DecimalString.
Import ListNotations.

Local Open Scope string_scope.
Local Open Scope list_scope.

Set Implicit Arguments.

(** ** Python values and exceptions *)

(** The scalar values that a caller binds to a filter or passes to
    [limit] and [offset]. *)
Inductive pyval : Type :=
| PInt (z : Z)
| PStr (s : string)
| PBool (b : bool)
| PNone.

Inductive exn : Type :=
| ValueError
| IndexError
| KeyError
| TypeError
| InvalidFilter.

Inductive result (A : Type) : Type :=
| Ok (a : A)
| Raise (e : exn).

Arguments Ok {A} a.
Arguments Raise {A} e.

Definition result_bind {A B} (r : result A) (k : A -> result B) : result B :=
  match r with
  | Ok a => k a
  | Raise e => Raise e
  end.

(** ** psycopg2.sql *)

Module Psycopg2.

(** The double quote and the single quote, as one-character strings. *)
Definition dquote : string := String (ascii_of_nat 34) EmptyString.
Definition squote : string := String (ascii_of_nat 39) EmptyString.

(** [double_up q s] writes every occurrence of the character [q] in [s]
    twice: the escaping of a delimiter inside a delimited token. *)
Fixpoint double_up (q : ascii) (s : string) : string :=
  match s with
  | EmptyString => EmptyString
  | String c rest =>
      if Ascii.eqb c q
      then String c (String c (double_up q rest))
      else String c (double_up q rest)
  end.

(** A Python string as the C library receives it: the characters before
    the first NUL. *)
Fixpoint c_string (s : string) : string :=
  match s with
  | EmptyString => EmptyString
  | String c rest =>
      if Ascii.eqb c Ascii.zero then EmptyString else String c (c_string rest)
  end.

(** [psycopg2.extensions.quote_ident]: the name, as the C library receives
    it, between double quotes, embedded double quotes doubled. *)
Definition quote_ident (name : string) : string :=
  dquote ++ double_up (ascii_of_nat 34) (c_string name) ++ dquote.

(** [psycopg2.extensions.adapt(v).getquoted()] on a connection with
    standard-conforming strings: integers in decimal (a negative one
    after a space), booleans as keywords, [None] as NULL, a string
    (without NUL character) between single quotes with embedded single
    quotes doubled. *)
Definition adapt (v : pyval) : string :=
  match v with
  | PInt z =>
      if (z <? 0)%Z
      then " " ++ NilZero.string_of_int (Z.to_int z)
      else NilZero.string_of_int (Z.to_int z)
  | PStr s => squote ++ double_up (ascii_of_nat 39) s ++ squote
  | PBool true => "true"
  | PBool false => "false"
  | PNone => "NULL"
  end.

(** The [Composable] class hierarchy. *)
#[warnings="-register-all"]
Inductive Composable : Type :=
| SQL (s : string)
| Identifier (strings : list string)
| Literal (wrapped : pyval)
| Placeholder
| Composed (seq : list Composable).

(** [Composable.as_string(context)]. *)
Fixpoint as_string (c : Composable) : string :=
  match c with
  | SQL s => s
  | Identifier strings => String.concat "." (map quote_ident strings)
  | Literal v => adapt v
  | Placeholder => "%s"
  | Composed seq => String.concat EmptyString (map as_string seq)
  end.

(** [Composable.__add__] and [Composed.__add__]. *)
Definition add (a b : Composable) : Composable :=
  match a, b with
  | Composed xs, Composed ys => Composed (xs ++ ys)
  | Composed xs, _ => Composed (xs ++ [b])
  | _, Composed ys => Composed ([a] ++ ys)
  | _, _ => Composed ([a] ++ [b])
  end.

(** [SQL.join(seq)]: the elements of [seq] with [joiner] between them. *)
Fixpoint intersperse (joiner : Composable) (seq : list Composable)
  : list Composable :=
  match seq with
  | [] => []
  | [x] => [x]
  | x :: rest => x :: joiner :: intersperse joiner rest
  end.

Definition SQL_join (joiner : string) (seq : list Composable) : Composable :=
  Composed (intersperse (SQL joiner) seq).

(** [Composed.join(joiner)] with a [str] joiner; only a [Composed] has
    this method (on [SQL], [join] takes a sequence instead). *)
Definition Composed_join (c : Composable) (joiner : string)
  : result Composable :=
  match c with
  | Composed seq => Ok (SQL_join joiner seq)
  | _ => Raise TypeError
  end.

(** *** SQL.format *)

(** [string.Formatter.parse] yields pairs of a literal text and the
    replacement field that follows it ([None] when the text is followed
    by an escaped brace or by the end of the template).  The model covers
    plain fields: a conversion, a format specification or a brace inside
    a field is answered with [ValueError]. *)
Inductive mode : Type :=
| InText (pre : string)
| InField (pre : string) (name : string).

Definition snoc (s : string) (c : ascii) : string :=
  s ++ String c EmptyString.

Definition lbrace : ascii := "{"%char.
Definition rbrace : ascii := "}"%char.

Definition is_empty (s : string) : bool :=
  match s with EmptyString => true | _ => false end.

Definition cons_chunk (ch : string * option string)
           (r : result (list (string * option string)))
  : result (list (string * option string)) :=
  result_bind r (fun l => Ok (ch :: l)).

Fixpoint parse (s : string) (m : mode) {struct s}
  : result (list (string * option string)) :=
  match s with
  | EmptyString =>
      match m with
      | InText pre => Ok (if is_empty pre then [] else [(pre, None)])
      | InField _ _ => Raise ValueError
      end
  | String c rest =>
      match m with
      | InText pre =>
          if Ascii.eqb c lbrace then
            match rest with
            | EmptyString => Raise ValueError
            | String c' rest' =>
                if Ascii.eqb c' lbrace
                then cons_chunk (snoc pre c, None)
                                (parse rest' (InText EmptyString))
                else parse rest (InField pre EmptyString)
            end
          else if Ascii.eqb c rbrace then
            match rest with
            | EmptyString => Raise ValueError
            | String c' rest' =>
                if Ascii.eqb c' rbrace
                then cons_chunk (snoc pre c, None)
                                (parse rest' (InText EmptyString))
                else Raise ValueError
            end
          else parse rest (InText (snoc pre c))
      | InField pre name =>
          if Ascii.eqb c rbrace
          then cons_chunk (pre, Some name) (parse rest (InText EmptyString))
          else if (Ascii.eqb c lbrace || Ascii.eqb c "!"%char
                   || Ascii.eqb c ":"%char)%bool
               then Raise ValueError
               else parse rest (InField pre (snoc name c))
      end
  end.

(** [str.isdigit] and [int] on a field name. *)
Definition digit_of (c : ascii) : option nat :=
  let n := nat_of_ascii c in
  if ((48 <=? n) && (n <=? 57))%nat then Some (n - 48) else None.

Fixpoint int_of (s : string) (acc : nat) : option nat :=
  match s with
  | EmptyString => Some acc
  | String c rest =>
      match digit_of c with
      | Some d => int_of rest (10 * acc + d)
      | None => None
      end
  end.

Definition index_of (name : string) : option nat :=
  if is_empty name then None else int_of name 0.

Fixpoint lookup (name : string) (kwargs : list (string * Composable))
  : result Composable :=
  match kwargs with
  | [] => Raise KeyError
  | (k, v) :: rest => if String.eqb k name then Ok v else lookup name rest
  end.

Definition nth_arg (args : list Composable) (n : nat) : result Composable :=
  match nth_error args n with
  | Some a => Ok a
  | None => Raise IndexError
  end.

Definition text_chunk (pre : string) : list Composable :=
  if is_empty pre then [] else [SQL pre].

(** The loop of [SQL.format]: [autonum] is [Some n] while fields are
    numbered automatically and [None] once one was numbered by hand. *)
Fixpoint fill (chunks : list (string * option string))
         (args : list Composable) (kwargs : list (string * Composable))
         (autonum : option nat) : result (list Composable) :=
  match chunks with
  | [] => Ok []
  | (pre, None) :: rest =>
      result_bind (fill rest args kwargs autonum)
                  (fun rv => Ok (text_chunk pre ++ rv))
  | (pre, Some name) :: rest =>
      match index_of name with
      | Some i =>
          match autonum with
          | Some (S _) => Raise ValueError
          | _ =>
              result_bind (nth_arg args i) (fun a =>
              result_bind (fill rest args kwargs None) (fun rv =>
              Ok (text_chunk pre ++ a :: rv)))
          end
      | None =>
          if is_empty name then
            match autonum with
            | None => Raise ValueError
            | Some n =>
                result_bind (nth_arg args n) (fun a =>
                result_bind (fill rest args kwargs (Some (S n))) (fun rv =>
                Ok (text_chunk pre ++ a :: rv)))
            end
          else
            result_bind (lookup name kwargs) (fun a =>
            result_bind (fill rest args kwargs autonum) (fun rv =>
            Ok (text_chunk pre ++ a :: rv)))
      end
  end.

(** [SQL(template).format( *args, **kwargs)]. *)
Definition format (template : string) (args : list Composable)
           (kwargs : list (string * Composable)) : result Composable :=
  result_bind (parse template (InText EmptyString)) (fun chunks =>
  result_bind (fill chunks args kwargs (Some 0)) (fun rv =>
  Ok (Composed rv))).

(** The [Placeholder] objects of a composed statement, counted left to
    right: the positions that the driver fills from the parameter list. *)
Fixpoint placeholders (c : Composable) : nat :=
  match c with
  | Placeholder => 1
  | Composed seq => list_sum (map placeholders seq)
  | _ => 0
  end.

End Psycopg2.

Import Psycopg2.


(** ** query_builder.where *)

(** Modelled from the spec: the boolean operator of a composite node of
    query_builder/where.py is AND or OR. *)
Inductive BoolOp : Type := AND | OR.

(** Modelled from the spec: the operator of a composite as it is rendered
    between the two sides. *)
Definition BoolOp_keyword (op : BoolOp) : string :=
  match op with AND => " AND " | OR => " OR " end.

(** Modelled from the spec: the class Where of query_builder/where.py,
    which select.py imports and which is not among the sources.
    A node is a leaf (table, column, operator, value) or a composite (left
    node, AND or OR, right node). *)
Inductive Where : Type :=
| Leaf (table column operator : string) (value : pyval)
| Composite (left : Where) (op : BoolOp) (right : Where).

(** The keyword arguments of a filter call: each of [table], [column],
    [operator] and [value] is given or left out. *)
Record WhereKwargs : Type := mkWhereKwargs {
  kw_table : option string;
  kw_column : option string;
  kw_operator : option string;
  kw_value : option pyval
}.

Definition no_kwargs : WhereKwargs := mkWhereKwargs None None None None.

(** Modelled from the spec: the null checks are the operators that bind no
    value. *)
Definition is_null_check (operator : string) : bool :=
  (String.eqb operator "IS NULL" || String.eqb operator "IS NOT NULL")%bool.

(** Modelled from the spec: the constructor Where(where, **kwargs) builds a
    node from an existing node, which it takes as it is, or else from a
    field set.  A field set whose operator needs a value and has none, or
    whose null check is given a value, is an InvalidFilter; a leaf needs its
    table, column and operator. *)
Definition Where_init (where_ : option Where) (kwargs : WhereKwargs)
  : result Where :=
  match where_ with
  | Some w => Ok w
  | None =>
      match kw_table kwargs, kw_column kwargs, kw_operator kwargs with
      | Some table, Some column, Some operator =>
          if is_null_check operator then
            match kw_value kwargs with
            | None => Ok (Leaf table column operator PNone)
            | Some _ => Raise InvalidFilter
            end
          else
            match kw_value kwargs with
            | None => Raise InvalidFilter
            | Some v => Ok (Leaf table column operator v)
            end
      | _, _, _ => Raise KeyError
      end
  end.

(** Modelled from the spec: and(other) and or(other) return a new composite
    node and leave both operands as they are. *)
Definition sql_and (self other : Where) : Where := Composite self AND other.

(** Modelled from the spec: or(other), as and(other) with the operator OR. *)
Definition sql_or (self other : Where) : Where := Composite self OR other.

(** Modelled from the spec: the rendered fragment of a node.  A leaf is
    table.column operator placeholder (no placeholder after a null check);
    a composite is its two sides around the boolean operator, between
    parentheses. *)
Fixpoint Where_sql (w : Where) : Composable :=
  match w with
  | Leaf table column operator _ =>
      if is_null_check operator
      then Composed [Identifier [table]; SQL "."; Identifier [column];
                     SQL " "; SQL operator]
      else Composed [Identifier [table]; SQL "."; Identifier [column];
                     SQL " "; SQL operator; SQL " "; Placeholder]
  | Composite l op r =>
      Composed [SQL "("; Where_sql l; SQL (BoolOp_keyword op); Where_sql r;
                SQL ")"]
  end.

(** Modelled from the spec: the parameters of a node, in the order in which
    its placeholders are rendered. *)
Fixpoint Where_params (w : Where) : list pyval :=
  match w with
  | Leaf _ _ operator value =>
      if is_null_check operator then [] else [value]
  | Composite l _ r => Where_params l ++ Where_params r
  end.

(** ** query_builder.join *)

(** Modelled from the spec: a column that an on-condition of
    query_builder/join.py refers to. *)
Record ColumnRef : Type := mkColumnRef {
  cr_table : string;
  cr_column : string
}.

(** Modelled from the spec: an entry of a join spec of
    query_builder/join.py (not among the sources) is a table and
    an on-condition; an on-condition references columns, never literals.
    The model takes it to be an equality of two columns. *)
Record JoinEntry : Type := mkJoinEntry {
  je_table : string;
  je_left : ColumnRef;
  je_right : ColumnRef
}.

(** Modelled from the spec: a join spec is the ordered sequence of its
    entries. *)
Definition Join : Type := list JoinEntry.

(** The keyword arguments of a join call: the raw parts of one entry, or
    none. *)
Definition JoinKwargs : Type := option JoinEntry.

(** Modelled from the spec: Join(join, **kwargs) and Join.join(join,
    **kwargs): another join spec contributes its entries in their order,
    raw parts contribute one entry; nothing is deduplicated.  With neither
    there is no entry to build. *)
Definition Join_init (join : option Join) (kwargs : JoinKwargs)
  : result Join :=
  match join, kwargs with
  | Some j, _ => Ok j
  | None, Some e => Ok [e]
  | None, None => Raise KeyError
  end.

(** Modelled from the spec: Join.join appends to the entries of [self]. *)
Definition Join_join (self : Join) (join : option Join) (kwargs : JoinKwargs)
  : result Join :=
  result_bind (Join_init join kwargs) (fun new => Ok (self ++ new)).

(** Modelled from the spec: an ordered set of names: each name once, in
    the order of its first occurrence. *)
Fixpoint ordered_set (names : list string) : list string :=
  match names with
  | [] => []
  | name :: rest =>
      name :: filter (fun other => negb (String.eqb name other))
                     (ordered_set rest)
  end.

(** Modelled from the spec: tables() is the ordered set of the names of the
    joined tables, in entry order. *)
Definition Join_tables (j : Join) : list string :=
  ordered_set (map je_table j).

(** Modelled from the spec: a column reference and an entry of a join spec,
    rendered with quoted identifiers. *)
Definition ColumnRef_sql (c : ColumnRef) : list Composable :=
  [Identifier [cr_table c]; SQL "."; Identifier [cr_column c]].

Definition JoinEntry_sql (e : JoinEntry) : Composable :=
  Composed ([SQL "JOIN "; Identifier [je_table e]; SQL " ON "]
            ++ ColumnRef_sql (je_left e) ++ [SQL " = "]
            ++ ColumnRef_sql (je_right e)).

(** Modelled from the spec: each entry rendered as JOIN table ON condition,
    in append order, separated by a space. *)
Definition Join_sql (j : Join) : Composable :=
  SQL_join " " (map JoinEntry_sql j).

(** ** query_builder.utilities and query_builder.postgres_config *)

(** Modelled from the spec: the connection configuration, seen through the
    column catalog it gives access to: the column names of each table. *)
Definition PostgresConfig : Type := string -> list string.

(** Modelled from the spec: get_columns_composed of
    query_builder/utilities.py (not among the sources) returns the
    ordered list of the fully qualified column identifiers of a table, as a
    Composed. *)
Definition get_columns_composed (table : string) (pg_config : PostgresConfig)
  : Composable :=
  Composed (map (fun c => Identifier [table; c]) (pg_config table)).

(** ** query_builder.select: class Select *)

(** The attributes of a [Select] object. *)
Record Select : Type := mkSelect {
  _table_name : string;
  _distinct : option Composable;
  _join : option Join;
  _where : option Where;
  _order_by : option Composable;
  _limit : option Composable;
  _offset : option Composable;
  _group_by : option Composable
}.

(** [Select.__init__]. *)
Definition Select_init (table_name : string) : Select :=
  mkSelect table_name None None None None None None None.

(** Assignments to one attribute of [self]. *)
Definition set_distinct (v : option Composable) (s : Select) : Select :=
  mkSelect (_table_name s) v (_join s) (_where s) (_order_by s) (_limit s)
           (_offset s) (_group_by s).
Definition set_join (v : option Join) (s : Select) : Select :=
  mkSelect (_table_name s) (_distinct s) v (_where s) (_order_by s) (_limit s)
           (_offset s) (_group_by s).
Definition set_where (v : option Where) (s : Select) : Select :=
  mkSelect (_table_name s) (_distinct s) (_join s) v (_order_by s) (_limit s)
           (_offset s) (_group_by s).
Definition set_order_by (v : option Composable) (s : Select) : Select :=
  mkSelect (_table_name s) (_distinct s) (_join s) (_where s) v (_limit s)
           (_offset s) (_group_by s).
Definition set_limit (v : option Composable) (s : Select) : Select :=
  mkSelect (_table_name s) (_distinct s) (_join s) (_where s) (_order_by s) v
           (_offset s) (_group_by s).
Definition set_offset (v : option Composable) (s : Select) : Select :=
  mkSelect (_table_name s) (_distinct s) (_join s) (_where s) (_order_by s)
           (_limit s) v (_group_by s).
Definition set_group_by (v : option Composable) (s : Select) : Select :=
  mkSelect (_table_name s) (_distinct s) (_join s) (_where s) (_order_by s)
           (_limit s) (_offset s) v.

(** A method of [Select] runs on the attributes of [self]; it returns a
    value or raises, and leaves the attributes as it last assigned them.
    A method that returns [self] is a computation of type [M unit]: the
    caller holds the same object before and after. *)
Definition M (A : Type) : Type := Select -> result A * Select.

Definition ret {A} (a : A) : M A := fun s => (Ok a, s).

Definition bind {A B} (c : M A) (k : A -> M B) : M B :=
  fun s =>
    match c s with
    | (Ok a, s') => k a s'
    | (Raise e, s') => (Raise e, s')
    end.

Definition attr {A} (field : Select -> A) : M A := fun s => (Ok (field s), s).

Definition assign (setter : Select -> Select) : M unit :=
  fun s => (Ok tt, setter s).

Definition lift {A} (r : result A) : M A := fun s => (r, s).

Declare Scope select_scope.
Delimit Scope select_scope with select.
Notation "x <- c ;; k" := (bind c (fun x => k))
  (at level 61, c at next level, right associativity) : select_scope.
Notation "c ;; k" := (bind c (fun _ => k))
  (at level 61, right associativity) : select_scope.
Local Open Scope select_scope.

(** The value and the final attributes of a run. *)
Definition value {A} (c : M A) (s : Select) : result A := fst (c s).
Definition exec {A} (c : M A) (s : Select) : Select := snd (c s).

(** [Select.table_name] (property). *)
Definition table_name : M string := attr _table_name.

(** [Select.join].  The join spec of [self] is updated in place by
    [Join.join]; [self._join] is the only reference to it. *)
Definition join (join_ : option Join) (kwargs : JoinKwargs) : M unit :=
  j <- attr _join ;;
  match j with
  | None =>
      new <- lift (Join_init join_ kwargs) ;;
      assign (set_join (Some new))
  | Some self_join =>
      match join_ with
      | Some other =>
          merged <- lift (Join_join self_join (Some other) None) ;;
          assign (set_join (Some merged))
      | None =>
          merged <- lift (Join_join self_join None kwargs) ;;
          assign (set_join (Some merged))
      end
  end.

(** [Select.get_join]. *)
Definition get_join : M (option Join) := attr _join.

(** The first statement of the three filter methods:
    if table is not in kwargs, kwargs[table] = self._table_name. *)
Definition default_table (kwargs : WhereKwargs) : M WhereKwargs :=
  match kw_table kwargs with
  | Some _ => ret kwargs
  | None =>
      t <- attr _table_name ;;
      ret (mkWhereKwargs (Some t) (kw_column kwargs) (kw_operator kwargs)
                         (kw_value kwargs))
  end.

(** [Select.where_and]. *)
Definition where_and (where_ : option Where) (kwargs : WhereKwargs) : M unit :=
  kwargs <- default_table kwargs ;;
  w <- attr _where ;;
  match w with
  | None =>
      new <- lift (Where_init where_ kwargs) ;;
      assign (set_where (Some new))
  | Some root =>
      new <- lift (Where_init where_ kwargs) ;;
      assign (set_where (Some (sql_and root new)))
  end.

(** [Select.where_or]. *)
Definition where_or (where_ : option Where) (kwargs : WhereKwargs) : M unit :=
  kwargs <- default_table kwargs ;;
  w <- attr _where ;;
  match w with
  | None =>
      new <- lift (Where_init where_ kwargs) ;;
      assign (set_where (Some new))
  | Some root =>
      new <- lift (Where_init where_ kwargs) ;;
      assign (set_where (Some (sql_or root new)))
  end.

(** [Select.where]. *)
Definition where_ (where_ : option Where) (kwargs : WhereKwargs) : M unit :=
  kwargs <- default_table kwargs ;;
  w <- attr _where ;;
  match w with
  | None =>
      new <- lift (Where_init where_ kwargs) ;;
      assign (set_where (Some new))
  | Some _ =>
      new <- lift (Where_init where_ kwargs) ;;
      where_and (Some new) no_kwargs
  end.

(** [Select.order_by]; [direction] defaults to ASC. *)
Definition order_by (column : string) (table : option string)
           (direction : string) : M unit :=
  t <- attr _table_name ;;
  clause <- lift (format "ORDER BY {}.{} {}"
                    [Identifier [match table with None => t | Some t' => t' end];
                     Identifier [column];
                     SQL direction] []) ;;
  assign (set_order_by (Some clause)).

Definition default_direction : string := "ASC".

(** The argument of [distinct]: a [str] or a sequence of them. *)
Inductive columns_arg : Type :=
| OneColumn (c : string)
| ManyColumns (cs : list string).

(** [Select.distinct].  The method also prints [isinstance(columns, str)]
    on the standard output, which is no attribute of [self]. *)
Definition distinct (columns : columns_arg) : M unit :=
  match columns with
  | OneColumn c =>
      clause <- lift (format "DISTINCT {}" [Identifier [c]] []) ;;
      assign (set_distinct (Some clause))
  | ManyColumns cs =>
      clause <- lift (format "DISTINCT {}"
                        [SQL_join ", " (map (fun c => Identifier [c]) cs)] []) ;;
      assign (set_distinct (Some clause))
  end.

(** [Select.order_by_sql] (property). *)
Definition order_by_sql : M Composable :=
  o <- attr _order_by ;;
  match o with
  | None => ret (SQL EmptyString)
  | Some c => ret c
  end.

(** [Select.limit]. *)
Definition limit (limit_ : pyval) : M unit :=
  clause <- lift (format "LIMIT {}" [Literal limit_] []) ;;
  assign (set_limit (Some clause)).

(** [Select.limit_sql] (property). *)
Definition limit_sql : M Composable :=
  l <- attr _limit ;;
  match l with
  | None => ret (SQL EmptyString)
  | Some c => ret c
  end.

(** [Select.offset]. *)
Definition offset (offset_ : pyval) : M unit :=
  clause <- lift (format "OFFSET {}" [Literal offset_] []) ;;
  assign (set_offset (Some clause)).

(** [Select.offset_sql] (property). *)
Definition offset_sql : M Composable :=
  o <- attr _offset ;;
  match o with
  | None => ret (SQL EmptyString)
  | Some c => ret c
  end.

(** [Select.group_by]. *)
Definition group_by (column : string) (table : option string) : M unit :=
  t <- attr _table_name ;;
  clause <- lift (format "GROUP BY {}.{}"
                    [Identifier [match table with None => t | Some t' => t' end];
                     Identifier [column]] []) ;;
  assign (set_group_by (Some clause)).

(** [Select.group_by_sql] (property). *)
Definition group_by_sql : M Composable :=
  g <- attr _group_by ;;
  match g with
  | None => ret (SQL EmptyString)
  | Some c => ret c
  end.

(** The loop of [to_sql] over [join.tables]:
    columns = columns + get_columns_composed(t, pg_config). *)
Definition add_columns (pg_config : PostgresConfig) (columns : Composable)
           (tables : list string) : Composable :=
  fold_left (fun cols t => add cols (get_columns_composed t pg_config))
            tables columns.

(** [Select.to_sql]. *)
Definition to_sql (pg_config : PostgresConfig) : M Composable :=
  table_name <- table_name ;;
  let columns := get_columns_composed table_name pg_config in
  join <- get_join ;;
  let '(join_sql, columns) :=
    match join with
    | Some j => (Join_sql j, add_columns pg_config columns (Join_tables j))
    | None => (SQL EmptyString, columns)
    end in
  w <- attr _where ;;
  where_sql <- match w with
               | Some w => lift (format " WHERE {where}" []
                                        [("where", Where_sql w)])
               | None => ret (SQL EmptyString)
               end ;;
  order_by <- order_by_sql ;;
  group_by <- group_by_sql ;;
  limit <- limit_sql ;;
  offset <- offset_sql ;;
  d <- attr _distinct ;;
  projection <- match d with
                | None => lift (Composed_join columns ",")
                | Some d => ret d
                end ;;
  lift (format
          "SELECT {columns} FROM {table} {join} {where} {order_by} {group_by} {offset} {limit}"
          []
          [("columns", projection);
           ("table", Identifier [table_name]);
           ("join", join_sql);
           ("where", where_sql);
           ("order_by", order_by);
           ("group_by", group_by);
           ("offset", offset);
           ("limit", limit)]).

(** [Select.get_params]. *)
Definition get_params : M (list pyval) :=
  w <- attr _where ;;
  match w with
  | None => ret []
  | Some w => ret (Where_params w)
  end.

(** ** Sequences of calls on one builder *)

(** A call of a method of the fluent interface, with its arguments. *)
Inductive Call : Type :=
| CallJoin (join_ : option Join) (kwargs : JoinKwargs)
| CallWhere (where_ : option Where) (kwargs : WhereKwargs)
| CallWhereAnd (where_ : option Where) (kwargs : WhereKwargs)
| CallWhereOr (where_ : option Where) (kwargs : WhereKwargs)
| CallOrderBy (column : string) (table : option string) (direction : string)
| CallDistinct (columns : columns_arg)
| CallLimit (limit_ : pyval)
| CallOffset (offset_ : pyval)
| CallGroupBy (column : string) (table : option string)
| CallToSql (pg_config : PostgresConfig)
| CallGetParams.

Definition call (c : Call) : M unit :=
  match c with
  | CallJoin j kw => join j kw
  | CallWhere w kw => where_ w kw
  | CallWhereAnd w kw => where_and w kw
  | CallWhereOr w kw => where_or w kw
  | CallOrderBy column table direction => order_by column table direction
  | CallDistinct columns => distinct columns
  | CallLimit v => limit v
  | CallOffset v => offset v
  | CallGroupBy column table => group_by column table
  | CallToSql pg_config => to_sql pg_config ;; ret tt
  | CallGetParams => get_params ;; ret tt
  end.

(** The attributes of the builder after the calls [cs], made in this order.
    A call that raises leaves the attributes as they were when it raised;
    the caller may go on with the same object. *)
Definition history (cs : list Call) (s : Select) : Select :=
  fold_left (fun s c => exec (call c) s) cs s.

Definition is_filter (c : Call) : bool :=
  match c with
  | CallWhere _ _ | CallWhereAnd _ _ | CallWhereOr _ _ => true
  | _ => false
  end.
Definition is_order_by (c : Call) : bool :=
  match c with CallOrderBy _ _ _ => true | _ => false end.
Definition is_distinct (c : Call) : bool :=
  match c with CallDistinct _ => true | _ => false end.
Definition is_limit (c : Call) : bool :=
  match c with CallLimit _ => true | _ => false end.
Definition is_offset (c : Call) : bool :=
  match c with CallOffset _ => true | _ => false end.
Definition is_group_by (c : Call) : bool :=
  match c with CallGroupBy _ _ => true | _ => false end.
Definition is_render (c : Call) : bool :=
  match c with CallToSql _ | CallGetParams => true | _ => false end.

(** No call of the kind [kind] among [cs]. *)
Definition never (kind : Call -> bool) (cs : list Call) : Prop :=
  forallb (fun c => negb (kind c)) cs = true.

(** ** What the methods compute *)

(** The clause that a modifier stores, and the parts of the statement that
    [to_sql] composes, written as functions of the attributes. *)
Definition or_base (table : option string) (base : string) : string :=
  match table with None => base | Some t => t end.

Definition order_by_clause (table column direction : string) : Composable :=
  Composed [SQL "ORDER BY "; Identifier [table]; SQL "."; Identifier [column];
            SQL " "; SQL direction].

Definition group_by_clause (table column : string) : Composable :=
  Composed [SQL "GROUP BY "; Identifier [table]; SQL "."; Identifier [column]].

Definition limit_clause (v : pyval) : Composable :=
  Composed [SQL "LIMIT "; Literal v].

Definition offset_clause (v : pyval) : Composable :=
  Composed [SQL "OFFSET "; Literal v].

Definition distinct_clause (columns : columns_arg) : Composable :=
  match columns with
  | OneColumn c => Composed [SQL "DISTINCT "; Identifier [c]]
  | ManyColumns cs =>
      Composed [SQL "DISTINCT ";
                SQL_join ", " (map (fun c => Identifier [c]) cs)]
  end.

Definition clause (o : option Composable) : Composable :=
  match o with
  | None => SQL EmptyString
  | Some c => c
  end.

Definition join_clause (s : Select) : Composable :=
  match _join s with
  | None => SQL EmptyString
  | Some j => Join_sql j
  end.

Definition where_clause (s : Select) : Composable :=
  match _where s with
  | None => SQL EmptyString
  | Some w => Composed [SQL " WHERE "; Where_sql w]
  end.

Definition table_columns (pg_config : PostgresConfig) (table : string)
  : list Composable :=
  map (fun c => Identifier [table; c]) (pg_config table).

Definition joined_tables (s : Select) : list string :=
  match _join s with
  | None => []
  | Some j => Join_tables j
  end.

(** The catalog columns of the base table, then those of each joined table
    in the order of the join. *)
Definition catalog_columns (pg_config : PostgresConfig) (s : Select)
  : list Composable :=
  table_columns pg_config (_table_name s)
  ++ flat_map (table_columns pg_config) (joined_tables s).

Definition projection (pg_config : PostgresConfig) (s : Select) : Composable :=
  match _distinct s with
  | None => SQL_join "," (catalog_columns pg_config s)
  | Some d => d
  end.

(** The layout of the statement: eight slots and the text between them. *)
Definition statement (columns table join_sql where_sql order group
                      offset_sql limit_sql : Composable) : Composable :=
  Composed [SQL "SELECT "; columns; SQL " FROM "; table; SQL " "; join_sql;
            SQL " "; where_sql; SQL " "; order; SQL " "; group; SQL " ";
            offset_sql; SQL " "; limit_sql].

Definition rendered (pg_config : PostgresConfig) (s : Select) : Composable :=
  statement (projection pg_config s) (Identifier [_table_name s])
            (join_clause s) (where_clause s) (clause (_order_by s))
            (clause (_group_by s)) (clause (_offset s)) (clause (_limit s)).

Definition params_of (s : Select) : list pyval :=
  match _where s with
  | None => []
  | Some w => Where_params w
  end.

Definition with_table (base : string) (kwargs : WhereKwargs) : WhereKwargs :=
  match kw_table kwargs with
  | Some _ => kwargs
  | None => mkWhereKwargs (Some base) (kw_column kwargs) (kw_operator kwargs)
                          (kw_value kwargs)
  end.

(** The root after a filter call that adds [new] with the operator [op]. *)
Definition grow (op : BoolOp) (root : option Where) (new : Where) : Where :=
  match root with
  | None => new
  | Some r => Composite r op new
  end.

Definition filter_run (op : BoolOp) (where_ : option Where)
           (kwargs : WhereKwargs) (s : Select) : result unit * Select :=
  match Where_init where_ (with_table (_table_name s) kwargs) with
  | Ok new => (Ok tt, set_where (Some (grow op (_where s) new)) s)
  | Raise e => (Raise e, s)
  end.

(** ** Binding parameters to placeholders *)

(** The composed statement with its [Placeholder] objects replaced, left to
    right, each by the literal of the next parameter, and the parameters
    left over; [None] when the parameters run out.  This is a substitution
    on the objects of the statement; what the driver does with the text of
    the statement is [cursor_bind] below. *)
Fixpoint mogrify (c : Composable) (params : list pyval)
  : option (Composable * list pyval) :=
  match c with
  | Placeholder =>
      match params with
      | [] => None
      | p :: rest => Some (Literal p, rest)
      end
  | Composed seq =>
      match
        (fix go (seq : list Composable) (params : list pyval)
           : option (list Composable * list pyval) :=
           match seq with
           | [] => Some ([], params)
           | x :: xs =>
               match mogrify x params with
               | None => None
               | Some (x', params') =>
                   match go xs params' with
                   | None => None
                   | Some (xs', rest) => Some (x' :: xs', rest)
                   end
               end
           end) seq params
      with
      | None => None
      | Some (seq', rest) => Some (Composed seq', rest)
      end
  | _ => Some (c, params)
  end.

Fixpoint mogrify_seq (seq : list Composable) (params : list pyval)
  : option (list Composable * list pyval) :=
  match seq with
  | [] => Some ([], params)
  | x :: xs =>
      match mogrify x params with
      | None => None
      | Some (x', params') =>
          match mogrify_seq xs params' with
          | None => None
          | Some (xs', rest) => Some (x' :: xs', rest)
          end
      end
  end.

(** The fragment of a filter tree with the value of every leaf written in
    the place of its placeholder. *)
Fixpoint Where_bound (w : Where) : Composable :=
  match w with
  | Leaf table column operator value =>
      if is_null_check operator
      then Composed [Identifier [table]; SQL "."; Identifier [column];
                     SQL " "; SQL operator]
      else Composed [Identifier [table]; SQL "."; Identifier [column];
                     SQL " "; SQL operator; SQL " "; Literal value]
  | Composite l op r =>
      Composed [SQL "("; Where_bound l; SQL (BoolOp_keyword op); Where_bound r;
                SQL ")"]
  end.

Definition where_clause_bound (s : Select) : Composable :=
  match _where s with
  | None => SQL EmptyString
  | Some w => Composed [SQL " WHERE "; Where_bound w]
  end.

Definition rendered_bound (pg_config : PostgresConfig) (s : Select)
  : Composable :=
  statement (projection pg_config s) (Identifier [_table_name s])
            (join_clause s) (where_clause_bound s) (clause (_order_by s))
            (clause (_group_by s)) (clause (_offset s)) (clause (_limit s)).

(** ** Text up to white space *)

(** The words of a text: its maximal runs of characters other than the
    space. *)
Fixpoint words_from (s : string) (cur : string) : list string :=
  match s with
  | EmptyString => if is_empty cur then [] else [cur]
  | String c rest =>
      if Ascii.eqb c " "%char
      then (if is_empty cur then words_from rest EmptyString
            else cur :: words_from rest EmptyString)
      else words_from rest (snoc cur c)
  end.

Definition words (s : string) : list string := words_from s EmptyString.

(** ** The scenario of a filter and a limit *)

(** A catalog in which the table users has the columns id and name. *)
Definition users_catalog : PostgresConfig :=
  fun table => if String.eqb table "users" then ["id"; "name"] else [].

(** The keyword arguments column=id, operator==, value=5. *)
Definition id_equals_5 : WhereKwargs :=
  mkWhereKwargs None (Some "id") (Some "=") (Some (PInt 5)).

(** The calls where(column=id, operator==, value=5).limit(10) followed by
    [to_sql] and [get_params], to be run on Select(users). *)
Definition scenario : M (Composable * list pyval) :=
  where_ None id_equals_5 ;;
  limit (PInt 10) ;;
  command <- to_sql users_catalog ;;
  params <- get_params ;;
  ret (command, params).

Definition qualified (table column : string) : string :=
  quote_ident table ++ "." ++ quote_ident column.

(** The statement of the scenario up to white space, with the given last
    word. *)
Definition scenario_words (last : string) : list string :=
  ["SELECT";
   (qualified "users" "id" ++ "," ++ qualified "users" "name")%string;
   "FROM"; quote_ident "users";
   "WHERE"; qualified "users" "id"; "="; "%s";
   "LIMIT"; last].

(** The text of the statement of the scenario, spaces included. *)
Definition scenario_text : string :=
  "SELECT " ++ qualified "users" "id" ++ "," ++ qualified "users" "name"
  ++ " FROM " ++ quote_ident "users"
  ++ "   WHERE " ++ qualified "users" "id" ++ " = %s"
  ++ "    LIMIT 10".

(** ** The effect of a call on the attributes *)

(** The join spec after a call of [join]. *)
Definition join_run (join_ : option Join) (kwargs : JoinKwargs) (s : Select)
  : result unit * Select :=
  match _join s with
  | None =>
      match Join_init join_ kwargs with
      | Ok new => (Ok tt, set_join (Some new) s)
      | Raise e => (Raise e, s)
      end
  | Some self_join =>
      match Join_join self_join join_
                      (match join_ with Some _ => None | None => kwargs end)
      with
      | Ok merged => (Ok tt, set_join (Some merged) s)
      | Raise e => (Raise e, s)
      end
  end.

(** The assignment, if any, that each call makes. *)
Definition effect (c : Call) (s : Select) : Select :=
  match c with
  | CallJoin j kw => snd (join_run j kw s)
  | CallWhere w kw => snd (filter_run AND w kw s)
  | CallWhereAnd w kw => snd (filter_run AND w kw s)
  | CallWhereOr w kw => snd (filter_run OR w kw s)
  | CallOrderBy column table direction =>
      set_order_by
        (Some (order_by_clause (or_base table (_table_name s)) column direction))
        s
  | CallDistinct columns => set_distinct (Some (distinct_clause columns)) s
  | CallLimit v => set_limit (Some (limit_clause v)) s
  | CallOffset v => set_offset (Some (offset_clause v)) s
  | CallGroupBy column table =>
      set_group_by (Some (group_by_clause (or_base table (_table_name s)) column))
                   s
  | CallToSql _ => s
  | CallGetParams => s
  end.

(** No modifier clause holds a placeholder. *)
Definition modifiers_closed (s : Select) : Prop :=
  placeholders (clause (_distinct s)) = 0
  /\ placeholders (clause (_order_by s)) = 0
  /\ placeholders (clause (_group_by s)) = 0
  /\ placeholders (clause (_offset s)) = 0
  /\ placeholders (clause (_limit s)) = 0.

(** ** Notions used to state the properties *)

(** The argument of the last call of [distinct] among [cs], if any. *)
Definition last_distinct (cs : list Call) : option columns_arg :=
  fold_left (fun last c =>
               match c with
               | CallDistinct columns => Some columns
               | _ => last
               end) cs None.

Definition column_names (columns : columns_arg) : list string :=
  match columns with
  | OneColumn c => [c]
  | ManyColumns cs => cs
  end.

(** [extends root root'] : the tree [root'] is [root], or a composite
    whose left side extends [root]. *)
Inductive extends (root : Where) : Where -> Prop :=
| extends_same : extends root root
| extends_more root' op new :
    extends root root' -> extends root (Composite root' op new).

(** A catalog with the tables users and orders. *)
Definition shop_catalog : PostgresConfig :=
  fun table =>
    if String.eqb table "users" then ["id"; "name"]
    else if String.eqb table "orders" then ["id"; "user_id"]
    else [].

(** The raw parts of a join of orders on orders.user_id = users.id. *)
Definition orders_of_user : JoinEntry :=
  mkJoinEntry "orders" (mkColumnRef "orders" "user_id")
              (mkColumnRef "users" "id").

(** Two calls of the same modifier among [order_by], [group_by], [limit],
    [offset] and [distinct]. *)
Definition same_modifier (c1 c2 : Call) : bool :=
  (is_order_by c1 && is_order_by c2)
  || (is_group_by c1 && is_group_by c2)
  || (is_limit c1 && is_limit c2)
  || (is_offset c1 && is_offset c2)
  || (is_distinct c1 && is_distinct c2).

(** The calls join(table=orders, ...), where(column=id, operator==,
    value=5), order_by(id, direction=DESC), offset(20), limit(10). *)
Definition report_calls : list Call :=
  [CallJoin None (Some orders_of_user);
   CallWhere None id_equals_5;
   CallOrderBy "id" None "DESC";
   CallOffset (PInt 20);
   CallLimit (PInt 10)].

Definition report_text : string :=
  "SELECT " ++ qualified "users" "id" ++ "," ++ qualified "users" "name" ++ ","
  ++ qualified "orders" "id" ++ "," ++ qualified "orders" "user_id"
  ++ " FROM " ++ quote_ident "users"
  ++ " JOIN " ++ quote_ident "orders" ++ " ON "
  ++ qualified "orders" "user_id" ++ " = " ++ qualified "users" "id"
  ++ "  WHERE " ++ qualified "users" "id" ++ " = %s"
  ++ " ORDER BY " ++ qualified "users" "id" ++ " DESC"
  ++ "  OFFSET 20 LIMIT 10".

(** ** The attribute that a call assigns *)

(** The optional attributes of a [Select]. *)
Inductive Attribute : Type :=
| AJoin | AWhere | AOrderBy | ADistinct | ALimit | AOffset | AGroupBy.

Definition Attribute_eqb (a b : Attribute) : bool :=
  match a, b with
  | AJoin, AJoin | AWhere, AWhere | AOrderBy, AOrderBy
  | ADistinct, ADistinct | ALimit, ALimit | AOffset, AOffset
  | AGroupBy, AGroupBy => true
  | _, _ => false
  end.

(** The one attribute that the body of each method assigns; [to_sql] and
    [get_params] assign none. *)
Definition target (c : Call) : option Attribute :=
  match c with
  | CallJoin _ _ => Some AJoin
  | CallWhere _ _ | CallWhereAnd _ _ | CallWhereOr _ _ => Some AWhere
  | CallOrderBy _ _ _ => Some AOrderBy
  | CallDistinct _ => Some ADistinct
  | CallLimit _ => Some ALimit
  | CallOffset _ => Some AOffset
  | CallGroupBy _ _ => Some AGroupBy
  | CallToSql _ | CallGetParams => None
  end.

(** Two calls that assign the same attribute. *)
Definition same_target (c1 c2 : Call) : bool :=
  match target c1, target c2 with
  | Some a, Some b => Attribute_eqb a b
  | _, _ => false
  end.

(** An attribute that is not [None]. *)
Definition is_set {A} (o : option A) : bool :=
  match o with
  | Some _ => true
  | None => false
  end.

(** The argument of the last call of [limit], and of [offset], among
    [cs]. *)
Definition last_limit (cs : list Call) : option pyval :=
  fold_left (fun last c =>
               match c with
               | CallLimit v => Some v
               | _ => last
               end) cs None.

Definition last_offset (cs : list Call) : option pyval :=
  fold_left (fun last c =>
               match c with
               | CallOffset v => Some v
               | _ => last
               end) cs None.

(** ** Select.execute *)






(** ** The parts of a statement and the calls behind them *)

(** A call that assigns the attribute [a]. *)
Definition assigns (a : Attribute) (c : Call) : bool :=
  match target c with
  | Some b => Attribute_eqb a b
  | None => false
  end.

(** What [to_sql] reads from the attribute [a]. *)
Definition part (a : Attribute) (s : Select) : Composable :=
  match a with
  | AJoin => join_clause s
  | AWhere => where_clause s
  | AOrderBy => clause (_order_by s)
  | ADistinct => clause (_distinct s)
  | ALimit => clause (_limit s)
  | AOffset => clause (_offset s)
  | AGroupBy => clause (_group_by s)
  end.

(** Two builders with the same table and the same attribute [a]. *)
Definition agree (a : Attribute) (s s' : Select) : Prop :=
  _table_name s = _table_name s'
  /\ match a with
     | AJoin => _join s = _join s'
     | AWhere => _where s = _where s'
     | AOrderBy => _order_by s = _order_by s'
     | ADistinct => _distinct s = _distinct s'
     | ALimit => _limit s = _limit s'
     | AOffset => _offset s = _offset s'
     | AGroupBy => _group_by s = _group_by s'
     end.

(** ** What the driver does with the text of a statement *)

Definition percent : ascii := "%"%char.

(** A text without the character %. *)
Fixpoint percent_free (s : string) : bool :=
  match s with
  | EmptyString => true
  | String c rest => negb (Ascii.eqb c percent) && percent_free rest
  end.

(** [cursor.execute(command, params)] of psycopg2 renders the command to
    text and, with a sequence of parameters, reads the text twice.  The
    first reading takes one parameter for every % that is not followed by
    another %: [IndexError] when none is left; a % followed by an opening
    parenthesis asks for a parameter by name, which a sequence does not
    have.  [available] is the number of parameters not yet taken. *)
Fixpoint take_params (text : string) (available : nat) : result unit :=
  match text with
  | EmptyString => Ok tt
  | String c rest =>
      if Ascii.eqb c percent then
        match rest with
        | EmptyString =>
            match available with
            | 0 => Raise IndexError
            | S _ => Ok tt
            end
        | String c' rest' =>
            if Ascii.eqb c' percent then take_params rest' available
            else if Ascii.eqb c' "("%char then Raise TypeError
            else match available with
                 | 0 => Raise IndexError
                 | S n => take_params rest n
                 end
        end
      else take_params rest available
  end.

Definition prepend (prefix : string) (r : result (string * list pyval))
  : result (string * list pyval) :=
  match r with
  | Ok (t, remaining) => Ok ((prefix ++ t)%string, remaining)
  | Raise e => Raise e
  end.

(** The second reading formats the text: %s becomes the literal of the next
    parameter, a doubled % becomes one %, any other use of % is a
    [ValueError].  The result is the text and the parameters left over. *)
Fixpoint bind_text (text : string) (params : list pyval)
  : result (string * list pyval) :=
  match text with
  | EmptyString => Ok (EmptyString, params)
  | String c rest =>
      if Ascii.eqb c percent then
        match rest with
        | EmptyString => Raise ValueError
        | String c' rest' =>
            if Ascii.eqb c' "s"%char then
              match params with
              | [] => Raise IndexError
              | p :: ps => prepend (adapt p) (bind_text rest' ps)
              end
            else if Ascii.eqb c' percent
                 then prepend (String percent EmptyString)
                              (bind_text rest' params)
                 else Raise ValueError
        end
      else prepend (String c EmptyString) (bind_text rest params)
  end.

(** The text that [cursor.execute(command, params)] sends for the text of a
    command and a sequence of parameters, or the exception it raises; a
    parameter that no marker takes is a [TypeError]. *)
Definition cursor_bind (text : string) (params : list pyval) : result string :=
  match take_params text (length params) with
  | Raise e => Raise e
  | Ok _ =>
      match bind_text text params with
      | Raise e => Raise e
      | Ok (t, []) => Ok t
      | Ok (_, _ :: _) => Raise TypeError
      end
  end.

(** A composed statement in which no text, identifier or literal renders
    with a %: its only markers are its [Placeholder] objects. *)
Fixpoint clean (c : Composable) : bool :=
  match c with
  | SQL s => percent_free s
  | Identifier strings => percent_free (as_string (Identifier strings))
  | Literal v => percent_free (adapt v)
  | Placeholder => true
  | Composed seq => forallb clean seq
  end.

(** ** The clause keywords of a statement *)

(** The keywords that open the clauses of a SELECT statement. *)
Inductive Keyword : Type :=
| KSelect | KFrom | KJoin | KWhere | KGroupBy | KOrderBy | KLimit | KOffset.



(** The keyword that a list of words starts with. *)
Definition keyword_of (ws : list string) : option Keyword :=
  match ws with
  | [] => None
  | w :: rest =>
      if String.eqb w "SELECT" then Some KSelect
      else if String.eqb w "FROM" then Some KFrom
      else if String.eqb w "JOIN" then Some KJoin
      else if String.eqb w "WHERE" then Some KWhere
      else if String.eqb w "LIMIT" then Some KLimit
      else if String.eqb w "OFFSET" then Some KOffset
      else
        match rest with
        | [] => None
        | w' :: _ =>
            if (String.eqb w "GROUP" && String.eqb w' "BY")%bool
            then Some KGroupBy
            else if (String.eqb w "ORDER" && String.eqb w' "BY")%bool
                 then Some KOrderBy
                 else None
        end
  end.

(** The keyword that a part of a composed statement starts with. *)
Definition part_keyword (c : Composable) : list Keyword :=
  match keyword_of (words (as_string c)) with
  | Some k => [k]
  | None => []
  end.



(** * Properties of the builder *)

Section Runs.

Variable s : Select.

Lemma order_by_run column table direction :
  order_by column table direction s
  = (Ok tt, set_order_by
              (Some (order_by_clause (or_base table (_table_name s)) column
                                     direction)) s).
Proof. reflexivity. Qed.

Lemma group_by_run column table :
  group_by column table s
  = (Ok tt, set_group_by
              (Some (group_by_clause (or_base table (_table_name s)) column)) s).
Proof. reflexivity. Qed.

Lemma limit_run v : limit v s = (Ok tt, set_limit (Some (limit_clause v)) s).
Proof. reflexivity. Qed.

Lemma offset_run v : offset v s = (Ok tt, set_offset (Some (offset_clause v)) s).
Proof. reflexivity. Qed.

Lemma distinct_run columns :
  distinct columns s = (Ok tt, set_distinct (Some (distinct_clause columns)) s).
Proof. destruct columns; reflexivity. Qed.

Lemma default_table_run kwargs :
  default_table kwargs s = (Ok (with_table (_table_name s) kwargs), s).
Proof.
  unfold default_table, with_table.
  destruct (kw_table kwargs); reflexivity.
Qed.

Lemma where_and_run w kwargs : where_and w kwargs s = filter_run AND w kwargs s.
Proof.
  unfold where_and, filter_run, bind. rewrite default_table_run.
  unfold attr, lift, assign, grow, sql_and.
  destruct (_where s); destruct (Where_init _ _); reflexivity.
Qed.

Lemma where_or_run w kwargs : where_or w kwargs s = filter_run OR w kwargs s.
Proof.
  unfold where_or, filter_run, bind. rewrite default_table_run.
  unfold attr, lift, assign, grow, sql_or.
  destruct (_where s); destruct (Where_init _ _); reflexivity.
Qed.

Lemma where_run w kwargs : where_ w kwargs s = filter_run AND w kwargs s.
Proof.
  unfold where_, filter_run, bind. rewrite default_table_run.
  unfold attr, lift, assign, grow.
  destruct (_where s) as [root|] eqn:Hroot;
    destruct (Where_init _ _) as [new|e]; try reflexivity.
  rewrite where_and_run. unfold filter_run. simpl. rewrite Hroot. reflexivity.
Qed.

Lemma get_params_run : get_params s = (Ok (params_of s), s).
Proof.
  unfold get_params, params_of, bind, attr, ret.
  destruct (_where s); reflexivity.
Qed.

End Runs.

(** *** The statement composed by [to_sql] *)

Lemma add_columns_Composed pg_config tables : forall xs,
  add_columns pg_config (Composed xs) tables
  = Composed (xs ++ flat_map (table_columns pg_config) tables).
Proof.
  induction tables as [|t tables IH]; intros xs; simpl.
  - now rewrite app_nil_r.
  - unfold add_columns in *. simpl. rewrite IH.
    unfold table_columns at 2. now rewrite <- app_assoc.
Qed.

Lemma format_select c t j w o g f l :
  format
    "SELECT {columns} FROM {table} {join} {where} {order_by} {group_by} {offset} {limit}"
    []
    [("columns", c); ("table", t); ("join", j); ("where", w); ("order_by", o);
     ("group_by", g); ("offset", f); ("limit", l)]
  = Ok (statement c t j w o g f l).
Proof. reflexivity. Qed.

Lemma to_sql_run pg_config s :
  to_sql pg_config s = (Ok (rendered pg_config s), s).
Proof.
  unfold to_sql, rendered, projection, catalog_columns, joined_tables,
    join_clause, where_clause, clause.
  unfold bind, table_name, get_join, attr, order_by_sql, group_by_sql,
    limit_sql, offset_sql, lift, ret, get_columns_composed.
  destruct s as [t d j w o l f g]; simpl.
  destruct j as [j|]; simpl.
  - rewrite add_columns_Composed.
    destruct w, o, g, l, f, d; reflexivity.
  - rewrite app_nil_r.
    destruct w, o, g, l, f, d; reflexivity.
Qed.

(** *** Runs on concrete builders *)

Example format_positional a b :
  format "GROUP BY {}.{}" [a; b] []
  = Ok (Composed [SQL "GROUP BY "; a; SQL "."; b]).
Proof. reflexivity. Qed.

Example format_missing_keyword a :
  format " WHERE {where}" [] [("here", a)] = Raise KeyError.
Proof. reflexivity. Qed.

Example quote_ident_doubles :
  quote_ident ("a" ++ dquote ++ "b")
  = (dquote ++ "a" ++ dquote ++ dquote ++ "b" ++ dquote)%string.
Proof. reflexivity. Qed.

Example report_run :
  let s := history report_calls (Select_init "users") in
  value (to_sql shop_catalog) s = Ok (rendered shop_catalog s)
  /\ as_string (rendered shop_catalog s) = report_text
  /\ value get_params s = Ok [PInt 5].
Proof. repeat split. Qed.

Example null_check_binds_nothing :
  let kwargs := mkWhereKwargs None (Some "name") (Some "IS NULL") None in
  let s := history [CallWhere None kwargs] (Select_init "users") in
  _where s = Some (Leaf "users" "name" "IS NULL" PNone)
  /\ value get_params s = Ok []
  /\ as_string (where_clause s) = (" WHERE " ++ qualified "users" "name" ++ " IS NULL")%string.
Proof. repeat split. Qed.

Example missing_value_is_invalid :
  let kwargs := mkWhereKwargs None (Some "id") (Some "=") None in
  where_ None kwargs (Select_init "users")
  = (Raise InvalidFilter, Select_init "users").
Proof. reflexivity. Qed.

(** *** C1: a filter and a limit *)

Lemma scenario_run :
  value scenario (Select_init "users")
  = Ok (rendered users_catalog
          (set_limit (Some (limit_clause (PInt 10)))
             (set_where (Some (Leaf "users" "id" "=" (PInt 5)))
                (Select_init "users"))),
        [PInt 5]).
Proof. reflexivity. Qed.

(** C1, as stated, fails: on Select(users).where(column=id, operator==,
    value=5).limit(10) with the catalog [users_catalog], it is not the case
    that [to_sql] renders the statement ending in LIMIT %s (up to white
    space) while [get_params] returns [5, 10]. *)
Lemma c1_limit_is_not_bound :
  ~ (exists command params,
        value scenario (Select_init "users") = Ok (command, params)
        /\ words (as_string command) = scenario_words "%s"
        /\ params = [PInt 5; PInt 10]).
Proof.
  intros (command & params & Hrun & _ & Hparams).
  rewrite scenario_run in Hrun. inversion Hrun; subst. discriminate.
Qed.

(** C1, amended: on the same builder [to_sql] renders
    SELECT users.id,users.name FROM users WHERE users.id = %s LIMIT 10
    (identifiers between double quotes), the limit written into the
    statement as a literal, and [get_params] returns exactly [5]: the
    filter value is the only bound parameter. *)
Theorem c1_limit_is_inlined :
  exists command,
    value scenario (Select_init "users") = Ok (command, [PInt 5])
    /\ as_string command = scenario_text
    /\ words (as_string command) = scenario_words "10"
    /\ placeholders command = 1.
Proof.
  eexists. split; [apply scenario_run|].
  split; [reflexivity|]. split; reflexivity.
Qed.

(** *** The effect of each call *)

Lemma join_call_run j kwargs s : join j kwargs s = join_run j kwargs s.
Proof.
  unfold join, join_run, bind, attr, lift, assign.
  destruct (_join s) as [self_join|].
  - destruct j as [other|]; [reflexivity|].
    destruct kwargs; reflexivity.
  - destruct (Join_init j kwargs); reflexivity.
Qed.

Lemma exec_call c s : exec (call c) s = effect c s.
Proof.
  unfold exec. destruct c; simpl.
  - now rewrite join_call_run.
  - now rewrite where_run.
  - now rewrite where_and_run.
  - now rewrite where_or_run.
  - reflexivity.
  - now rewrite distinct_run.
  - reflexivity.
  - reflexivity.
  - reflexivity.
  - unfold bind. now rewrite to_sql_run.
  - unfold bind. now rewrite get_params_run.
Qed.

Lemma history_nil s : history [] s = s.
Proof. reflexivity. Qed.

Lemma history_cons c cs s : history (c :: cs) s = history cs (effect c s).
Proof. unfold history. simpl. now rewrite exec_call. Qed.

Lemma history_app cs1 cs2 s :
  history (cs1 ++ cs2) s = history cs2 (history cs1 s).
Proof. unfold history. apply fold_left_app. Qed.

Lemma history_snoc cs c s : history (cs ++ [c]) s = effect c (history cs s).
Proof. rewrite history_app, history_cons. reflexivity. Qed.

(** An attribute that a kind of call alone assigns keeps its value along
    calls of the other kinds. *)
Lemma history_frame {A} (field : Select -> A) (kind : Call -> bool) :
  (forall c s, kind c = false -> field (effect c s) = field s) ->
  forall cs s, never kind cs -> field (history cs s) = field s.
Proof.
  intros Hframe cs. unfold never.
  induction cs as [|c cs IH]; intros s Hcs.
  - reflexivity.
  - simpl in Hcs. apply andb_true_iff in Hcs. destruct Hcs as [Hc Hcs].
    rewrite history_cons, IH by assumption.
    apply Hframe. now apply negb_true_iff.
Qed.

(** A property of the attributes that every call keeps holds after any
    sequence of calls. *)
Lemma history_invariant (P : Select -> Prop) :
  (forall c s, P s -> P (effect c s)) ->
  forall cs s, P s -> P (history cs s).
Proof.
  intros Hstep cs. induction cs as [|c cs IH]; intros s Hs.
  - exact Hs.
  - rewrite history_cons. apply IH, Hstep, Hs.
Qed.

Lemma filter_run_cases op w kwargs s :
  snd (filter_run op w kwargs s) = s
  \/ exists new, snd (filter_run op w kwargs s)
                 = set_where (Some (grow op (_where s) new)) s.
Proof.
  unfold filter_run. destruct (Where_init _ _) as [new|e]; simpl.
  - right. now exists new.
  - now left.
Qed.

Lemma join_run_cases j kwargs s :
  snd (join_run j kwargs s) = s
  \/ exists new, snd (join_run j kwargs s) = set_join (Some new) s.
Proof.
  unfold join_run. destruct (_join s).
  - destruct (Join_join _ _ _) as [new|e]; simpl; [right; now exists new|now left].
  - destruct (Join_init _ _) as [new|e]; simpl; [right; now exists new|now left].
Qed.

Lemma table_name_effect c s : _table_name (effect c s) = _table_name s.
Proof.
  destruct c as [j kw|w kw|w kw|w kw| | | | | | |]; simpl; try reflexivity.
  - destruct (join_run_cases j kw s) as [->|[new ->]]; reflexivity.
  - destruct (filter_run_cases AND w kw s) as [->|[new ->]]; reflexivity.
  - destruct (filter_run_cases AND w kw s) as [->|[new ->]]; reflexivity.
  - destruct (filter_run_cases OR w kw s) as [->|[new ->]]; reflexivity.
Qed.

Lemma table_name_history cs t : _table_name (history cs (Select_init t)) = t.
Proof.
  apply (history_invariant (fun s => _table_name s = t)); [|reflexivity].
  intros c s Hs. now rewrite table_name_effect.
Qed.

(** *** Placeholders and parameters *)

Lemma Composable_nested_ind (P : Composable -> Prop) :
  (forall s, P (SQL s)) ->
  (forall strings, P (Identifier strings)) ->
  (forall v, P (Literal v)) ->
  P Placeholder ->
  (forall seq, Forall P seq -> P (Composed seq)) ->
  forall c, P c.
Proof.
  intros HSQL HIdentifier HLiteral HPlaceholder HComposed.
  fix IH 1.
  intros [s|strings|v| |seq];
    [apply HSQL|apply HIdentifier|apply HLiteral|exact HPlaceholder|].
  apply HComposed.
  induction seq as [|x seq IHseq]; constructor; [apply IH|exact IHseq].
Qed.

Lemma mogrify_Composed seq params :
  mogrify (Composed seq) params
  = match mogrify_seq seq params with
    | None => None
    | Some (seq', rest) => Some (Composed seq', rest)
    end.
Proof.
  cbn [mogrify].
  match goal with
  | |- match ?go seq params with _ => _ end = _ =>
      assert (Hgo : forall seq params, go seq params = mogrify_seq seq params)
  end.
  { clear. induction seq as [|x seq IH]; intros params; [reflexivity|].
    simpl. destruct (mogrify x params) as [[x' params']|]; [|reflexivity].
    now rewrite IH. }
  now rewrite Hgo.
Qed.

Lemma list_sum_zero (l : list nat) :
  list_sum l = 0 <-> Forall (fun n => n = 0) l.
Proof.
  induction l as [|n l IH]; simpl.
  - split; auto.
  - split.
    + intros H. constructor; [lia|]. apply IH. lia.
    + intros H. inversion H; subst. simpl. now apply IH.
Qed.

(** A statement without placeholders is bound to itself and consumes no
    parameter. *)
Lemma mogrify_closed : forall c params,
  placeholders c = 0 -> mogrify c params = Some (c, params).
Proof.
  induction c as [s|strings|v| |seq IH] using Composable_nested_ind;
    intros params Hc; try reflexivity.
  - discriminate.
  - rewrite mogrify_Composed.
    assert (Hseq : mogrify_seq seq params = Some (seq, params)).
    { cbn [placeholders] in Hc. revert params.
      induction IH as [|x seq Hx _ IHseq]; intros params; [reflexivity|].
      simpl in Hc. cbn [mogrify_seq].
      rewrite Hx by lia. rewrite IHseq by lia. reflexivity. }
    now rewrite Hseq.
Qed.

Lemma mogrify_seq_closed_cons x xs params :
  placeholders x = 0 ->
  mogrify_seq (x :: xs) params
  = match mogrify_seq xs params with
    | None => None
    | Some (xs', rest) => Some (x :: xs', rest)
    end.
Proof. intros Hx. cbn [mogrify_seq]. now rewrite mogrify_closed. Qed.

(** Binding the parameters of a filter tree to its fragment writes the
    value of every leaf at the placeholder of that leaf, and consumes
    exactly the parameters of the tree. *)
Lemma mogrify_Where : forall w rest,
  mogrify (Where_sql w) (Where_params w ++ rest) = Some (Where_bound w, rest).
Proof.
  induction w as [table column operator v|l IHl op r IHr]; intros rest.
  - cbn [Where_sql Where_params Where_bound].
    destruct (is_null_check operator); reflexivity.
  - cbn [Where_sql Where_params Where_bound].
    rewrite mogrify_Composed, <- app_assoc.
    cbn [mogrify_seq mogrify]. rewrite IHl, IHr. reflexivity.
Qed.

Lemma placeholders_Where w :
  placeholders (Where_sql w) = length (Where_params w).
Proof.
  induction w as [table column operator v|l IHl op r IHr].
  - simpl. destruct (is_null_check operator); reflexivity.
  - simpl. rewrite IHl, IHr, length_app. lia.
Qed.

Lemma placeholders_intersperse joiner seq :
  placeholders joiner = 0 ->
  Forall (fun x => placeholders x = 0) seq ->
  list_sum (map placeholders (intersperse joiner seq)) = 0.
Proof.
  intros Hjoiner Hseq.
  induction Hseq as [|x seq Hx Hseq IH]; [reflexivity|].
  destruct seq as [|y seq].
  - simpl. lia.
  - change (intersperse joiner (x :: y :: seq))
      with (x :: joiner :: intersperse joiner (y :: seq)).
    rewrite !map_cons.
    change (placeholders x
            + (placeholders joiner
               + list_sum (map placeholders (intersperse joiner (y :: seq))))
            = 0).
    rewrite IH. lia.
Qed.

Lemma placeholders_join_clause s : placeholders (join_clause s) = 0.
Proof.
  unfold join_clause. destruct (_join s) as [j|]; [|reflexivity].
  unfold Join_sql, SQL_join. cbn [placeholders].
  apply placeholders_intersperse; [reflexivity|].
  apply Forall_map, Forall_forall. intros e _. reflexivity.
Qed.

Lemma placeholders_table_columns pg_config t :
  Forall (fun x => placeholders x = 0) (table_columns pg_config t).
Proof.
  unfold table_columns. apply Forall_map, Forall_forall. intros c _. reflexivity.
Qed.

Lemma placeholders_catalog_columns pg_config s :
  Forall (fun x => placeholders x = 0) (catalog_columns pg_config s).
Proof.
  unfold catalog_columns. apply Forall_app. split.
  - apply placeholders_table_columns.
  - apply Forall_flat_map, Forall_forall. intros t _.
    apply placeholders_table_columns.
Qed.

Lemma placeholders_projection pg_config s :
  placeholders (clause (_distinct s)) = 0 ->
  placeholders (projection pg_config s) = 0.
Proof.
  unfold projection. destruct (_distinct s) as [d|]; intros Hd; [exact Hd|].
  unfold SQL_join. cbn [placeholders].
  apply placeholders_intersperse; [reflexivity|].
  apply placeholders_catalog_columns.
Qed.

Lemma placeholders_distinct_clause columns :
  placeholders (distinct_clause columns) = 0.
Proof.
  destruct columns as [c|cs]; [reflexivity|].
  unfold distinct_clause, SQL_join.
  change (0 + (list_sum
                 (map placeholders
                    (intersperse (SQL ", ") (map (fun c => Identifier [c]) cs)))
               + 0) = 0).
  rewrite placeholders_intersperse; [reflexivity|reflexivity|].
  apply Forall_map, Forall_forall. intros c _. reflexivity.
Qed.

Lemma modifiers_closed_init t : modifiers_closed (Select_init t).
Proof. repeat split. Qed.

Lemma modifiers_closed_effect c s :
  modifiers_closed s -> modifiers_closed (effect c s).
Proof.
  intros (Hd & Ho & Hg & Hf & Hl).
  destruct c as [j kw|w kw|w kw|w kw|column table direction|columns|v|v
                |column table|pg_config|]; simpl.
  - destruct (join_run_cases j kw s) as [->|[new ->]]; repeat split; assumption.
  - destruct (filter_run_cases AND w kw s) as [->|[new ->]]; repeat split; assumption.
  - destruct (filter_run_cases AND w kw s) as [->|[new ->]]; repeat split; assumption.
  - destruct (filter_run_cases OR w kw s) as [->|[new ->]]; repeat split; assumption.
  - repeat split; assumption.
  - repeat split; try assumption. apply placeholders_distinct_clause.
  - repeat split; assumption.
  - repeat split; assumption.
  - repeat split; assumption.
  - repeat split; assumption.
  - repeat split; assumption.
Qed.

Lemma modifiers_closed_history cs t :
  modifiers_closed (history cs (Select_init t)).
Proof.
  apply history_invariant.
  - apply modifiers_closed_effect.
  - apply modifiers_closed_init.
Qed.

Lemma mogrify_statement c t j w w' o g f l params rest :
  placeholders c = 0 -> placeholders t = 0 -> placeholders j = 0 ->
  placeholders o = 0 -> placeholders g = 0 -> placeholders f = 0 ->
  placeholders l = 0 ->
  mogrify w params = Some (w', rest) ->
  mogrify (statement c t j w o g f l) params
  = Some (statement c t j w' o g f l, rest).
Proof.
  intros Hc Ht Hj Ho Hg Hf Hl Hw.
  unfold statement. rewrite mogrify_Composed.
  cbn [mogrify_seq mogrify].
  rewrite (mogrify_closed c _ Hc), (mogrify_closed t _ Ht),
    (mogrify_closed j _ Hj), Hw, (mogrify_closed o _ Ho),
    (mogrify_closed g _ Hg), (mogrify_closed f _ Hf), (mogrify_closed l _ Hl).
  reflexivity.
Qed.

Lemma placeholders_statement c t j w o g f l :
  placeholders c = 0 -> placeholders t = 0 -> placeholders j = 0 ->
  placeholders o = 0 -> placeholders g = 0 -> placeholders f = 0 ->
  placeholders l = 0 ->
  placeholders (statement c t j w o g f l) = placeholders w.
Proof.
  intros Hc Ht Hj Ho Hg Hf Hl. simpl.
  rewrite Hc, Ht, Hj, Ho, Hg, Hf, Hl. simpl. lia.
Qed.

Lemma placeholders_where_clause s :
  placeholders (where_clause s) = length (params_of s).
Proof.
  unfold where_clause, params_of. destruct (_where s) as [w|]; [|reflexivity].
  simpl. rewrite placeholders_Where. lia.
Qed.

Lemma mogrify_where_clause s :
  mogrify (where_clause s) (params_of s) = Some (where_clause_bound s, []).
Proof.
  unfold where_clause, where_clause_bound, params_of.
  destruct (_where s) as [w|]; [|reflexivity].
  rewrite mogrify_Composed. cbn [mogrify_seq mogrify].
  rewrite <- (app_nil_r (Where_params w)), mogrify_Where. reflexivity.
Qed.

Lemma where_frame c s : is_filter c = false -> _where (effect c s) = _where s.
Proof.
  destruct c as [j kw|w kw|w kw|w kw| | | | | | |]; simpl;
    try discriminate; try reflexivity.
  intros _. destruct (join_run_cases j kw s) as [->|[new ->]]; reflexivity.
Qed.

(** *** The text of a statement and the driver *)

Lemma append_empty_r (s : string) : (s ++ EmptyString)%string = s.
Proof. induction s as [|c s IH]; simpl; [reflexivity|now rewrite IH]. Qed.

Lemma append_assoc (a b c : string) :
  ((a ++ b) ++ c)%string = (a ++ (b ++ c))%string.
Proof. induction a as [|x a IH]; simpl; [reflexivity|now rewrite IH]. Qed.

Lemma concat_empty_cons (x : string) (xs : list string) :
  String.concat EmptyString (x :: xs)
  = (x ++ String.concat EmptyString xs)%string.
Proof.
  destruct xs as [|y xs]; simpl; [now rewrite append_empty_r|reflexivity].
Qed.

Lemma prepend_empty r : prepend EmptyString r = r.
Proof. destruct r as [[text remaining]|e]; reflexivity. Qed.

Lemma prepend_prepend a b r :
  prepend a (prepend b r) = prepend (a ++ b) r.
Proof.
  destruct r as [[text remaining]|e]; simpl; [|reflexivity].
  now rewrite append_assoc.
Qed.

Lemma take_params_percent_free a : forall b n,
  percent_free a = true -> take_params (a ++ b) n = take_params b n.
Proof.
  induction a as [|c a IH]; intros b n H; [reflexivity|].
  simpl in H. apply andb_true_iff in H. destruct H as [Hc Ha].
  apply negb_true_iff in Hc.
  change (String c a ++ b)%string with (String c (a ++ b)).
  cbn [take_params]. rewrite Hc. now apply IH.
Qed.

Lemma bind_text_percent_free a : forall b params,
  percent_free a = true ->
  bind_text (a ++ b) params = prepend a (bind_text b params).
Proof.
  induction a as [|c a IH]; intros b params H.
  - now rewrite prepend_empty.
  - simpl in H. apply andb_true_iff in H. destruct H as [Hc Ha].
    apply negb_true_iff in Hc.
    change (String c a ++ b)%string with (String c (a ++ b)).
    cbn [bind_text]. rewrite Hc, (IH _ _ Ha), prepend_prepend. reflexivity.
Qed.

Lemma take_params_marker suffix n :
  take_params ("%s" ++ suffix) (S n) = take_params suffix n.
Proof. reflexivity. Qed.

Lemma bind_text_marker suffix p params :
  bind_text ("%s" ++ suffix) (p :: params)
  = prepend (adapt p) (bind_text suffix params).
Proof. reflexivity. Qed.

Lemma as_string_Composed seq :
  as_string (Composed seq) = String.concat EmptyString (map as_string seq).
Proof. reflexivity. Qed.

(** The first reading of the text of a clean statement takes one parameter
    for each placeholder. *)
Lemma take_params_clean : forall c suffix n,
  clean c = true -> placeholders c <= n ->
  take_params (as_string c ++ suffix) n
  = take_params suffix (n - placeholders c).
Proof.
  induction c as [s|strings|v| |seq IH] using Composable_nested_ind;
    intros suffix n Hclean Hn.
  - rewrite Nat.sub_0_r. now apply take_params_percent_free.
  - rewrite Nat.sub_0_r. now apply take_params_percent_free.
  - rewrite Nat.sub_0_r. now apply take_params_percent_free.
  - destruct n as [|n]; [simpl in Hn; lia|].
    change (as_string Placeholder) with "%s".
    rewrite take_params_marker. simpl. now rewrite Nat.sub_0_r.
  - rewrite as_string_Composed. cbn [clean placeholders] in Hclean, Hn |- *.
    revert suffix n Hclean Hn.
    induction IH as [|x seq Hx _ IHseq]; intros suffix n Hclean Hn.
    + simpl. now rewrite Nat.sub_0_r.
    + cbn [map]. rewrite concat_empty_cons, append_assoc.
      simpl in Hclean. apply andb_true_iff in Hclean.
      destruct Hclean as [Hcx Hcseq]. simpl in Hn.
      rewrite Hx by (assumption || lia).
      rewrite IHseq by (assumption || lia).
      f_equal. simpl. lia.
Qed.

(** The second reading of the text of a clean statement writes the literal
    of each parameter where the placeholder of that parameter is. *)
Lemma bind_text_clean : forall c params c' rest suffix,
  clean c = true ->
  mogrify c params = Some (c', rest) ->
  bind_text (as_string c ++ suffix) params
  = prepend (as_string c') (bind_text suffix rest).
Proof.
  induction c as [s|strings|v| |seq IH] using Composable_nested_ind;
    intros params c' rest suffix Hclean Hbound.
  - inversion Hbound; subst. now apply bind_text_percent_free.
  - inversion Hbound; subst. now apply bind_text_percent_free.
  - inversion Hbound; subst. now apply bind_text_percent_free.
  - destruct params as [|p params]; [discriminate|].
    inversion Hbound; subst. apply bind_text_marker.
  - rewrite mogrify_Composed in Hbound.
    destruct (mogrify_seq seq params) as [[seq' rest']|] eqn:Hseq;
      [|discriminate].
    inversion Hbound; subst. clear Hbound.
    rewrite !as_string_Composed. cbn [clean] in Hclean.
    revert params seq' rest suffix Hclean Hseq.
    induction IH as [|x seq Hx _ IHseq];
      intros params seq' rest suffix Hclean Hseq.
    + inversion Hseq; subst. simpl. now rewrite prepend_empty.
    + cbn [mogrify_seq] in Hseq.
      destruct (mogrify x params) as [[x' mid]|] eqn:Hmx; [|discriminate].
      destruct (mogrify_seq seq mid) as [[xs' rest']|] eqn:Hmseq;
        [|discriminate].
      inversion Hseq; subst. clear Hseq.
      simpl in Hclean. apply andb_true_iff in Hclean.
      destruct Hclean as [Hcx Hcseq].
      cbn [map]. rewrite !concat_empty_cons, append_assoc.
      rewrite (Hx _ _ _ _ Hcx Hmx), (IHseq _ _ _ _ Hcseq Hmseq).
      now rewrite prepend_prepend.
Qed.

(** The driver binds the parameters to the text of a clean statement as
    the substitution on its placeholders does. *)
Lemma cursor_bind_clean c params c' :
  clean c = true ->
  placeholders c = length params ->
  mogrify c params = Some (c', []) ->
  cursor_bind (as_string c) params = Ok (as_string c').
Proof.
  intros Hclean Hcount Hbound. unfold cursor_bind.
  rewrite <- (append_empty_r (as_string c)).
  rewrite take_params_clean by (assumption || lia).
  rewrite (@bind_text_clean c params c' [] EmptyString Hclean Hbound).
  simpl. now rewrite append_empty_r.
Qed.

(** *** C2: the parameters follow the placeholders *)

(** C2, as stated, fails: on Select(users).where(column=id, operator==,
    value=5).offset(%s), the text of the statement of [to_sql] has a second
    marker, in the literal of the offset, for which [get_params] has no
    element: the driver cannot bind the parameters to the statement. *)
Lemma c2_marker_without_parameter :
  ~ (exists command params bound,
        let s := history [CallWhere None id_equals_5; CallOffset (PStr "%s")]
                         (Select_init "users") in
        value (to_sql users_catalog) s = Ok command
        /\ value get_params s = Ok params
        /\ cursor_bind (as_string command) params = Ok bound).
Proof.
  intros (command & params & bound & Hcommand & Hparams & Hbind).
  vm_compute in Hcommand. vm_compute in Hparams.
  inversion Hcommand; subst. inversion Hparams; subst.
  vm_compute in Hbind. discriminate.
Qed.

(** C2, amended: after any sequence of calls on a new builder,
    [get_params] returns the parameters of the filter tree (the empty list
    when no filter call was made), in the order of the placeholders of the
    WHERE fragment, which are the only placeholders that [to_sql] emits;
    and when no identifier, operator, direction or literal of the statement
    renders with a %, the driver binds the Nth parameter at the Nth marker
    of the text, which is the placeholder of the leaf the value belongs
    to. *)
Theorem c2_params_follow_placeholders t cs pg_config :
  let s := history cs (Select_init t) in
  value get_params s = Ok (params_of s)
  /\ (never is_filter cs -> value get_params s = Ok [])
  /\ value (to_sql pg_config) s = Ok (rendered pg_config s)
  /\ placeholders (rendered pg_config s) = placeholders (where_clause s)
  /\ placeholders (where_clause s) = length (params_of s)
  /\ mogrify (where_clause s) (params_of s) = Some (where_clause_bound s, [])
  /\ mogrify (rendered pg_config s) (params_of s)
     = Some (rendered_bound pg_config s, [])
  /\ (clean (rendered pg_config s) = true ->
      cursor_bind (as_string (rendered pg_config s)) (params_of s)
      = Ok (as_string (rendered_bound pg_config s))).
Proof.
  intros s.
  destruct (modifiers_closed_history cs t) as (Hd & Ho & Hg & Hf & Hl).
  fold s in Hd, Ho, Hg, Hf, Hl.
  pose proof (placeholders_projection pg_config s Hd) as Hp.
  pose proof (placeholders_join_clause s) as Hj.
  assert (Hcount : placeholders (rendered pg_config s)
                   = placeholders (where_clause s))
    by (unfold rendered; now apply placeholders_statement).
  assert (Hbound : mogrify (rendered pg_config s) (params_of s)
                   = Some (rendered_bound pg_config s, [])).
  { unfold rendered, rendered_bound.
    apply mogrify_statement; try assumption; try reflexivity.
    apply mogrify_where_clause. }
  split; [unfold value; now rewrite get_params_run|].
  split.
  { intros Hnever. unfold value. rewrite get_params_run. simpl.
    unfold params_of, s.
    rewrite (@history_frame _ _where is_filter where_frame cs _ Hnever).
    reflexivity. }
  split; [unfold value; now rewrite to_sql_run|].
  split; [exact Hcount|].
  split; [apply placeholders_where_clause|].
  split; [apply mogrify_where_clause|].
  split; [exact Hbound|].
  intros Hclean. apply cursor_bind_clean; try assumption.
  rewrite Hcount. apply placeholders_where_clause.
Qed.

Lemma c2_params_follow_placeholders_witness :
  (never is_filter [CallLimit (PInt 10); CallOrderBy "id" None "DESC"]
   /\ value get_params
        (history [CallLimit (PInt 10); CallOrderBy "id" None "DESC"]
                 (Select_init "users"))
      = Ok [])
  /\ (let s := history [CallWhere None id_equals_5; CallLimit (PInt 10)]
                       (Select_init "users") in
      clean (rendered users_catalog s) = true
      /\ cursor_bind (as_string (rendered users_catalog s)) (params_of s)
         = Ok (as_string (rendered_bound users_catalog s))).
Proof.
  split.
  - split; [reflexivity|].
    destruct (c2_params_follow_placeholders
                "users" [CallLimit (PInt 10); CallOrderBy "id" None "DESC"]
                users_catalog) as (_ & H & _).
    exact (H eq_refl).
  - intros s. split; [reflexivity|].
    destruct (c2_params_follow_placeholders
                "users" [CallWhere None id_equals_5; CallLimit (PInt 10)]
                users_catalog) as (_ & _ & _ & _ & _ & _ & _ & H).
    exact (H eq_refl).
Defined.

(** *** Attributes that a call leaves alone *)

Ltac frame_cases :=
  let j := fresh "j" in
  let w := fresh "w" in
  let kw := fresh "kw" in
  let s := fresh "s" in
  intros [j kw|w kw|w kw|w kw| | | | | | |] s; simpl;
  try discriminate; try reflexivity; intros _;
  [ destruct (join_run_cases j kw s) as [->|[? ->]]; reflexivity
  | destruct (filter_run_cases AND w kw s) as [->|[? ->]]; reflexivity
  | destruct (filter_run_cases AND w kw s) as [->|[? ->]]; reflexivity
  | destruct (filter_run_cases OR w kw s) as [->|[? ->]]; reflexivity ].




Lemma offset_frame c s :
  is_offset c = false -> _offset (effect c s) = _offset s.
Proof. revert c s. frame_cases. Qed.

Lemma limit_frame c s :
  is_limit c = false -> _limit (effect c s) = _limit s.
Proof. revert c s. frame_cases. Qed.

Lemma distinct_frame c s :
  is_distinct c = false -> _distinct (effect c s) = _distinct s.
Proof. revert c s. frame_cases. Qed.

Lemma as_string_statement c t j w o g f l :
  as_string (statement c t j w o g f l)
  = ("SELECT " ++ as_string c ++ " FROM " ++ as_string t ++ " "
     ++ as_string j ++ " " ++ as_string w ++ " " ++ as_string o ++ " "
     ++ as_string g ++ " " ++ as_string f ++ " " ++ as_string l)%string.
Proof. reflexivity. Qed.

Lemma as_string_SQL_join joiner seq :
  as_string (SQL_join joiner seq) = String.concat joiner (map as_string seq).
Proof.
  unfold SQL_join. cbn [as_string].
  induction seq as [|x seq IH]; [reflexivity|].
  destruct seq as [|y seq]; [reflexivity|].
  change (intersperse (SQL joiner) (x :: y :: seq))
    with (x :: SQL joiner :: intersperse (SQL joiner) (y :: seq)).
  change (String.concat joiner (map as_string (x :: y :: seq)))
    with (as_string x ++ joiner
          ++ String.concat joiner (map as_string (y :: seq)))%string.
  assert (Hcons : exists z tail,
             intersperse (SQL joiner) (y :: seq) = z :: tail)
    by (destruct seq; simpl; eauto).
  destruct Hcons as (z & tail & Hcons). rewrite Hcons in *.
  rewrite <- IH. reflexivity.
Qed.

(** *** The clause keywords of the statement *)









Lemma part_keyword_order_by_clause table column direction :
  part_keyword (order_by_clause table column direction) = [KOrderBy].
Proof. reflexivity. Qed.

Lemma part_keyword_group_by_clause table column :
  part_keyword (group_by_clause table column) = [KGroupBy].
Proof. reflexivity. Qed.

Lemma part_keyword_limit_clause v : part_keyword (limit_clause v) = [KLimit].
Proof. reflexivity. Qed.

Lemma part_keyword_offset_clause v :
  part_keyword (offset_clause v) = [KOffset].
Proof. reflexivity. Qed.






(** *** C3: the order of the clauses *)




(** *** C4: distinct replaces the projection *)

Lemma as_string_distinct_clause columns :
  as_string (distinct_clause columns)
  = ("DISTINCT " ++ String.concat ", " (map quote_ident (column_names columns)))%string.
Proof.
  destruct columns as [c|cs].
  - reflexivity.
  - unfold distinct_clause, column_names.
    change (as_string (Composed [SQL "DISTINCT "; ?x]))
      with ("DISTINCT " ++ as_string x)%string.
    rewrite as_string_SQL_join, map_map. reflexivity.
Qed.

Lemma distinct_history cs : forall s,
  _distinct (history cs s)
  = fold_left (fun last c =>
                 match c with
                 | CallDistinct columns => Some (distinct_clause columns)
                 | _ => last
                 end) cs (_distinct s).
Proof.
  induction cs as [|c cs IH]; intros s; [reflexivity|].
  rewrite history_cons, IH. simpl. f_equal.
  destruct (is_distinct c) eqn:Hc.
  - destruct c; try discriminate. reflexivity.
  - rewrite distinct_frame by assumption. destruct c; try discriminate; reflexivity.
Qed.

Lemma last_distinct_clause cs : forall last,
  fold_left (fun last c =>
               match c with
               | CallDistinct columns => Some (distinct_clause columns)
               | _ => last
               end) cs (option_map distinct_clause last)
  = option_map distinct_clause
      (fold_left (fun last c =>
                    match c with
                    | CallDistinct columns => Some columns
                    | _ => last
                    end) cs last).
Proof.
  induction cs as [|c cs IH]; intros last; [reflexivity|].
  simpl. rewrite <- IH. destruct c; reflexivity.
Qed.

(** C4: after any sequence of calls on a new builder, the projection of the
    statement of [to_sql] is the clause DISTINCT columns of the last call
    of [distinct], wherever that call stands among the others, and the
    catalog columns joined by commas when [distinct] was not called; the
    DISTINCT clause is made of the columns given to [distinct] alone. *)
Theorem c4_distinct_replaces_projection t cs pg_config :
  let s := history cs (Select_init t) in
  value (to_sql pg_config) s
  = Ok (statement
          (match last_distinct cs with
           | Some columns => distinct_clause columns
           | None => SQL_join "," (catalog_columns pg_config s)
           end)
          (Identifier [t]) (join_clause s) (where_clause s)
          (clause (_order_by s)) (clause (_group_by s)) (clause (_offset s))
          (clause (_limit s)))
  /\ (forall columns,
         as_string (distinct_clause columns)
         = ("DISTINCT "
            ++ String.concat ", " (map quote_ident (column_names columns)))%string).
Proof.
  intros s. split; [|apply as_string_distinct_clause].
  unfold value. rewrite to_sql_run. unfold rendered, projection, s.
  rewrite table_name_history, distinct_history.
  change (_distinct (Select_init t)) with (option_map distinct_clause None).
  rewrite last_distinct_clause. fold (last_distinct cs).
  destruct (last_distinct cs); reflexivity.
Qed.

(** *** C5: the columns of the joined tables *)

Lemma joined_tables_none s : _join s = None -> joined_tables s = [].
Proof. unfold joined_tables. now intros ->. Qed.

(** C5: the column list that [to_sql] builds is the catalog columns of the
    base table followed by those of each joined table, in the order of the
    tables of the join; it is the projection of the statement of a builder
    on which [distinct] was not set, and with no join it is the catalog
    columns of the base table alone. *)
Theorem c5_projection_order pg_config s :
  add_columns pg_config (get_columns_composed (_table_name s) pg_config)
              (joined_tables s)
  = Composed (table_columns pg_config (_table_name s)
              ++ flat_map (table_columns pg_config) (joined_tables s))
  /\ (_distinct s = None ->
      value (to_sql pg_config) s
      = Ok (statement
              (SQL_join ","
                 (table_columns pg_config (_table_name s)
                  ++ flat_map (table_columns pg_config) (joined_tables s)))
              (Identifier [_table_name s]) (join_clause s) (where_clause s)
              (clause (_order_by s)) (clause (_group_by s))
              (clause (_offset s)) (clause (_limit s))))
  /\ (_distinct s = None -> _join s = None ->
      projection pg_config s
      = SQL_join "," (table_columns pg_config (_table_name s))).
Proof.
  split; [|split].
  - unfold get_columns_composed. apply add_columns_Composed.
  - intros Hd. unfold value. rewrite to_sql_run.
    unfold rendered, projection, catalog_columns. now rewrite Hd.
  - intros Hd Hj. unfold projection, catalog_columns.
    now rewrite Hd, (joined_tables_none s Hj), app_nil_r.
Qed.

Lemma c5_projection_order_witness :
  let joined := history [CallJoin None (Some orders_of_user)]
                        (Select_init "users") in
  as_string (projection shop_catalog (Select_init "users"))
  = (qualified "users" "id" ++ "," ++ qualified "users" "name")%string
  /\ exists command,
       value (to_sql shop_catalog) joined = Ok command
       /\ as_string (projection shop_catalog joined)
          = (qualified "users" "id" ++ "," ++ qualified "users" "name" ++ ","
             ++ qualified "orders" "id" ++ ","
             ++ qualified "orders" "user_id")%string.
Proof.
  intros joined.
  destruct (c5_projection_order shop_catalog (Select_init "users"))
    as (_ & _ & Hbase).
  destruct (c5_projection_order shop_catalog joined) as (_ & Hjoined & _).
  split.
  - rewrite (Hbase eq_refl eq_refl). reflexivity.
  - eexists. split; [exact (Hjoined eq_refl)|reflexivity].
Defined.

(** *** C6: the life of the filter tree *)

Lemma extends_trans a b c : extends a b -> extends b c -> extends a c.
Proof.
  intros Hab Hbc. induction Hbc as [|c op new Hbc IH].
  - exact Hab.
  - now apply extends_more.
Qed.

Lemma where_extends_effect c s root :
  _where s = Some root ->
  exists root', _where (effect c s) = Some root' /\ extends root root'.
Proof.
  intros Hroot.
  destruct (is_filter c) eqn:Hc.
  - assert (Hrun : exists op w kw, effect c s = snd (filter_run op w kw s)).
    { destruct c; try discriminate; simpl; eauto. }
    destruct Hrun as (op & w & kw & ->).
    destruct (filter_run_cases op w kw s) as [->|[new ->]].
    + exists root. split; [assumption|constructor].
    + simpl. rewrite Hroot. simpl. eexists. split; [reflexivity|].
      apply extends_more. constructor.
  - rewrite where_frame by assumption.
    exists root. split; [assumption|constructor].
Qed.

Lemma where_extends_history cs : forall s root,
  _where s = Some root ->
  exists root', _where (history cs s) = Some root' /\ extends root root'.
Proof.
  induction cs as [|c cs IH]; intros s root Hroot.
  - exists root. split; [assumption|constructor].
  - rewrite history_cons.
    destruct (where_extends_effect c s Hroot) as (mid & Hmid & Hext).
    destruct (IH _ _ Hmid) as (root' & Hroot' & Hext').
    exists root'. split; [assumption|].
    eapply extends_trans; eassumption.
Qed.

(** C6: a filter call that builds the node [new] makes it the root when
    the builder has no filter, and otherwise replaces the root by the
    composite of the previous root and [new], with AND for [where_and] and
    for [where], with OR for [where_or]; [where] behaves as [where_and] on
    every builder; no other call assigns the root, and after any further
    calls the tree still extends the root it had. *)
Theorem c6_filter_tree_grows s w kwargs new :
  Where_init w (with_table (_table_name s) kwargs) = Ok new ->
  (_where s = None ->
     where_ w kwargs s = (Ok tt, set_where (Some new) s)
     /\ where_and w kwargs s = (Ok tt, set_where (Some new) s)
     /\ where_or w kwargs s = (Ok tt, set_where (Some new) s))
  /\ (forall root, _where s = Some root ->
        where_and w kwargs s
        = (Ok tt, set_where (Some (Composite root AND new)) s)
        /\ where_or w kwargs s
           = (Ok tt, set_where (Some (Composite root OR new)) s)
        /\ where_ w kwargs s
           = (Ok tt, set_where (Some (Composite root AND new)) s))
  /\ where_ w kwargs s = where_and w kwargs s
  /\ (forall c, is_filter c = false -> _where (exec (call c) s) = _where s)
  /\ (forall root cs, _where s = Some root ->
        exists root', _where (history cs s) = Some root'
                      /\ extends root root').
Proof.
  intros Hnew.
  rewrite where_run, where_and_run, where_or_run.
  unfold filter_run. rewrite Hnew.
  split; [|split; [|split; [|split]]].
  - intros ->. auto.
  - intros root ->. auto.
  - reflexivity.
  - intros c Hc. rewrite exec_call. now apply where_frame.
  - intros root cs Hroot. now apply where_extends_history.
Qed.

Lemma c6_filter_tree_grows_witness :
  let first := Leaf "users" "id" "=" (PInt 5) in
  let s := set_where (Some first) (Select_init "users") in
  where_ None id_equals_5 (Select_init "users") = (Ok tt, s)
  /\ where_or None id_equals_5 s
     = (Ok tt, set_where (Some (Composite first OR first)) s)
  /\ where_ None id_equals_5 s
     = (Ok tt, set_where (Some (Composite first AND first)) s).
Proof.
  intros first s.
  destruct (@c6_filter_tree_grows (Select_init "users") None id_equals_5 first
              eq_refl) as (Hnone & _).
  destruct (@c6_filter_tree_grows s None id_equals_5 first eq_refl)
    as (_ & Hsome & _).
  destruct (Hnone eq_refl) as (Hwhere & _).
  destruct (Hsome first eq_refl) as (_ & Hor & Hand).
  exact (conj Hwhere (conj Hor Hand)).
Defined.

(** *** C7: the table of a clause *)

Lemma as_string_order_by_clause table column direction :
  as_string (order_by_clause table column direction)
  = ("ORDER BY " ++ quote_ident table ++ "." ++ quote_ident column ++ " "
     ++ direction)%string.
Proof. reflexivity. Qed.

Lemma as_string_group_by_clause table column :
  as_string (group_by_clause table column)
  = ("GROUP BY " ++ quote_ident table ++ "." ++ quote_ident column)%string.
Proof. reflexivity. Qed.

Lemma as_string_Leaf table column operator v :
  as_string (Where_sql (Leaf table column operator v))
  = (quote_ident table ++ "." ++ quote_ident column ++ " " ++ operator
     ++ (if is_null_check operator then EmptyString else " %s"))%string.
Proof.
  cbn [Where_sql]. destruct (is_null_check operator).
  - rewrite append_empty_r. reflexivity.
  - reflexivity.
Qed.

(** A node that is passed as an object is added as it is, whatever the
    keyword arguments. *)
Lemma filter_run_object op w kwargs s :
  filter_run op (Some w) kwargs s
  = (Ok tt, set_where (Some (grow op (_where s) w)) s).
Proof. reflexivity. Qed.

Lemma as_string_where_clause_grown op root new s :
  as_string (where_clause (set_where (Some (grow op root new)) s))
  = (" WHERE "
     ++ match root with
        | None => as_string (Where_sql new)
        | Some r => "(" ++ as_string (Where_sql r) ++ BoolOp_keyword op
                    ++ as_string (Where_sql new) ++ ")"
        end)%string.
Proof. destruct root; reflexivity. Qed.

(** C7, as stated, fails: the call where(w) on Select(users), whose keyword
    arguments leave out the table, with w a node on the column total of
    the table orders, does not render the clause qualified by users: a
    node passed as an object keeps its own table. *)
Lemma c7_where_object_keeps_its_table :
  ~ (as_string
       (where_clause
          (exec (where_ (Some (Leaf "orders" "total" ">" (PInt 100)))
                        no_kwargs)
                (Select_init "users")))
     = (" WHERE " ++ qualified "users" "total" ++ " > %s")%string).
Proof. vm_compute. discriminate. Qed.

(** C7, amended: a call of [where], [where_and] or [where_or] that builds
    its condition from keyword arguments stores a leaf on the table of the
    builder when the table is left out and on the given table otherwise,
    and the WHERE fragment renders the leaf qualified by that table; the
    clauses of [order_by] and [group_by] are qualified by the table of the
    builder when none is given and by the given table otherwise; a node
    passed to a filter call as an object is added with the table it has. *)
Theorem c7_default_table s (table : option string) (column operator : string)
        (v : option pyval) (new : Where) (by_column direction : string) :
  let kwargs := mkWhereKwargs table (Some column) (Some operator) v in
  let used := or_base table (_table_name s) in
  let leaf_text :=
    (quote_ident used ++ "." ++ quote_ident column ++ " " ++ operator
     ++ (if is_null_check operator then EmptyString else " %s"))%string in
  let grown op :=
    (" WHERE "
     ++ match _where s with
        | None => leaf_text
        | Some root => "(" ++ as_string (Where_sql root) ++ BoolOp_keyword op
                       ++ leaf_text ++ ")"
        end)%string in
  Where_init None (with_table (_table_name s) kwargs) = Ok new ->
  (exists v', new = Leaf used column operator v')
  /\ as_string (Where_sql new) = leaf_text
  /\ where_ None kwargs s
     = (Ok tt, set_where (Some (grow AND (_where s) new)) s)
  /\ where_and None kwargs s
     = (Ok tt, set_where (Some (grow AND (_where s) new)) s)
  /\ where_or None kwargs s
     = (Ok tt, set_where (Some (grow OR (_where s) new)) s)
  /\ as_string (where_clause (exec (where_ None kwargs) s)) = grown AND
  /\ as_string (where_clause (exec (where_and None kwargs) s)) = grown AND
  /\ as_string (where_clause (exec (where_or None kwargs) s)) = grown OR
  /\ as_string
       (clause (_order_by (exec (order_by by_column table direction) s)))
     = ("ORDER BY " ++ quote_ident used ++ "." ++ quote_ident by_column ++ " "
        ++ direction)%string
  /\ as_string (clause (_group_by (exec (group_by by_column table) s)))
     = ("GROUP BY " ++ quote_ident used ++ "."
        ++ quote_ident by_column)%string
  /\ (forall w kwargs',
         where_ (Some w) kwargs' s
         = (Ok tt, set_where (Some (grow AND (_where s) w)) s)
         /\ where_and (Some w) kwargs' s
            = (Ok tt, set_where (Some (grow AND (_where s) w)) s)
         /\ where_or (Some w) kwargs' s
            = (Ok tt, set_where (Some (grow OR (_where s) w)) s)).
Proof.
  intros kwargs used leaf_text grown Hnew.
  assert (Hleaf : exists v', new = Leaf used column operator v').
  { unfold kwargs, with_table, Where_init in Hnew. unfold used.
    destruct table as [t|]; simpl in Hnew |- *;
      destruct (is_null_check operator), v as [v'|];
      try discriminate; inversion Hnew; eauto. }
  assert (Htext : as_string (Where_sql new) = leaf_text).
  { destruct Hleaf as [v' ->]. apply as_string_Leaf. }
  unfold exec.
  rewrite !where_run, !where_and_run, !where_or_run.
  rewrite order_by_run, group_by_run.
  unfold filter_run. rewrite Hnew. cbn [snd].
  split; [exact Hleaf|]. split; [exact Htext|].
  do 3 (split; [reflexivity|]).
  split; [rewrite as_string_where_clause_grown, Htext; reflexivity|].
  split; [rewrite as_string_where_clause_grown, Htext; reflexivity|].
  split; [rewrite as_string_where_clause_grown, Htext; reflexivity|].
  split; [apply as_string_order_by_clause|].
  split; [apply as_string_group_by_clause|].
  intros w kwargs'.
  rewrite where_run, where_and_run, where_or_run.
  repeat split.
Qed.

Lemma c7_default_table_witness :
  let s := history [CallWhere None id_equals_5] (Select_init "users") in
  let kwargs := mkWhereKwargs None (Some "name") (Some "LIKE")
                              (Some (PStr "a")) in
  where_or None kwargs s
  = (Ok tt,
     set_where (Some (grow OR (_where s) (Leaf "users" "name" "LIKE" (PStr "a"))))
               s)
  /\ as_string (where_clause (exec (where_or None kwargs) s))
     = (" WHERE (" ++ qualified "users" "id" ++ " = %s OR "
        ++ qualified "users" "name" ++ " LIKE %s)")%string.
Proof.
  intros s kwargs.
  destruct (@c7_default_table s None "name" "LIKE" (Some (PStr "a"))
              (Leaf "users" "name" "LIKE" (PStr "a")) "id" "ASC" eq_refl)
    as (_ & _ & _ & _ & Hor & _ & _ & Htext & _).
  exact (conj Hor Htext).
Defined.

(** *** C8: the last call wins *)

Section Overwrite.

(** An attribute with its assignment and the kind of call that makes it. *)
Variable setter : option Composable -> Select -> Select.
Variable kind : Call -> bool.

Hypothesis effect_after_setter : forall c v s,
  exists v', effect c (setter v s) = setter v' (effect c s).
Hypothesis effect_overwrites : forall c v s,
  kind c = true -> effect c (setter v s) = effect c s.
Hypothesis effect_is_setter : forall c s,
  kind c = true -> exists v, effect c s = setter v s.

Lemma history_after_setter cs : forall v s,
  exists v', history cs (setter v s) = setter v' (history cs s).
Proof.
  induction cs as [|c cs IH]; intros v s.
  - now exists v.
  - rewrite !history_cons.
    destruct (effect_after_setter c v s) as [v' ->]. apply IH.
Qed.

Lemma overwritten_call c1 c2 cs1 cs2 s :
  kind c1 = true -> kind c2 = true ->
  history (cs1 ++ c1 :: cs2 ++ [c2]) s = history (cs1 ++ cs2 ++ [c2]) s.
Proof.
  intros H1 H2.
  repeat first [rewrite history_app | rewrite history_cons
                | rewrite history_nil].
  destruct (@effect_is_setter c1 (history cs1 s) H1) as [v ->].
  destruct (history_after_setter cs2 v (history cs1 s)) as [v' ->].
  now apply effect_overwrites.
Qed.

End Overwrite.

Ltac setter_cases :=
  let j := fresh "j" in
  let w := fresh "w" in
  let kw := fresh "kw" in
  let v := fresh "v" in
  let s := fresh "s" in
  intros [j kw|w kw|w kw|w kw| | | | | | |] v s; simpl;
  try (eexists; reflexivity);
  [ unfold join_run; simpl; destruct (_join s);
    [destruct (Join_join _ _ _)|destruct (Join_init _ _)];
    simpl; eexists; reflexivity
  | unfold filter_run; simpl; destruct (Where_init _ _); simpl;
    eexists; reflexivity
  | unfold filter_run; simpl; destruct (Where_init _ _); simpl;
    eexists; reflexivity
  | unfold filter_run; simpl; destruct (Where_init _ _); simpl;
    eexists; reflexivity ].

Lemma order_by_after_setter : forall c v s,
  exists v', effect c (set_order_by v s) = set_order_by v' (effect c s).
Proof. setter_cases. Qed.

Lemma group_by_after_setter : forall c v s,
  exists v', effect c (set_group_by v s) = set_group_by v' (effect c s).
Proof. setter_cases. Qed.

Lemma limit_after_setter : forall c v s,
  exists v', effect c (set_limit v s) = set_limit v' (effect c s).
Proof. setter_cases. Qed.

Lemma offset_after_setter : forall c v s,
  exists v', effect c (set_offset v s) = set_offset v' (effect c s).
Proof. setter_cases. Qed.

Lemma distinct_after_setter : forall c v s,
  exists v', effect c (set_distinct v s) = set_distinct v' (effect c s).
Proof. setter_cases. Qed.

Lemma same_modifier_overwritten c1 c2 cs1 cs2 s :
  same_modifier c1 c2 = true ->
  history (cs1 ++ c1 :: cs2 ++ [c2]) s = history (cs1 ++ cs2 ++ [c2]) s.
Proof.
  unfold same_modifier. intros H.
  repeat (apply orb_true_iff in H; destruct H as [H|H]);
    apply andb_true_iff in H; destruct H as [H1 H2].
  - apply (overwritten_call set_order_by is_order_by order_by_after_setter);
      try assumption.
    + intros c v s0 Hc. destruct c; try discriminate. reflexivity.
    + intros c s0 Hc. destruct c; try discriminate. eexists. reflexivity.
  - apply (overwritten_call set_group_by is_group_by group_by_after_setter);
      try assumption.
    + intros c v s0 Hc. destruct c; try discriminate. reflexivity.
    + intros c s0 Hc. destruct c; try discriminate. eexists. reflexivity.
  - apply (overwritten_call set_limit is_limit limit_after_setter);
      try assumption.
    + intros c v s0 Hc. destruct c; try discriminate. reflexivity.
    + intros c s0 Hc. destruct c; try discriminate. eexists. reflexivity.
  - apply (overwritten_call set_offset is_offset offset_after_setter);
      try assumption.
    + intros c v s0 Hc. destruct c; try discriminate. reflexivity.
    + intros c s0 Hc. destruct c; try discriminate. eexists. reflexivity.
  - apply (overwritten_call set_distinct is_distinct distinct_after_setter);
      try assumption.
    + intros c v s0 Hc. destruct c; try discriminate. reflexivity.
    + intros c s0 Hc. destruct c; try discriminate. eexists. reflexivity.
Qed.

Lemma table_name_history_from cs s :
  _table_name (history cs s) = _table_name s.
Proof.
  apply (history_invariant (fun s' => _table_name s' = _table_name s));
    [|reflexivity].
  intros c s' Hs'. now rewrite table_name_effect.
Qed.

(** C8: two calls in a row of [order_by], of [group_by], of [limit], of
    [offset] or of [distinct] leave the builder as the second call alone
    does, and the statement rendered after them is the one rendered after
    the second call alone; in any sequence of calls that ends with a call
    of one of these modifiers, an earlier call of the same modifier can be
    left out without changing the builder; and after any sequence of calls
    the attribute of each of these modifiers holds the one clause built
    from the arguments of its last call. *)
Theorem c8_last_call_wins s pg_config :
  (forall c1 t1 d1 c2 t2 d2,
      (order_by c1 t1 d1 ;; order_by c2 t2 d2) s = order_by c2 t2 d2 s
      /\ (order_by c1 t1 d1 ;; order_by c2 t2 d2 ;; to_sql pg_config) s
         = (order_by c2 t2 d2 ;; to_sql pg_config) s)
  /\ (forall c1 t1 c2 t2,
         (group_by c1 t1 ;; group_by c2 t2) s = group_by c2 t2 s
         /\ (group_by c1 t1 ;; group_by c2 t2 ;; to_sql pg_config) s
            = (group_by c2 t2 ;; to_sql pg_config) s)
  /\ (forall v1 v2,
         (limit v1 ;; limit v2) s = limit v2 s
         /\ (limit v1 ;; limit v2 ;; to_sql pg_config) s
            = (limit v2 ;; to_sql pg_config) s)
  /\ (forall v1 v2,
         (offset v1 ;; offset v2) s = offset v2 s
         /\ (offset v1 ;; offset v2 ;; to_sql pg_config) s
            = (offset v2 ;; to_sql pg_config) s)
  /\ (forall cols1 cols2,
         (distinct cols1 ;; distinct cols2) s = distinct cols2 s
         /\ (distinct cols1 ;; distinct cols2 ;; to_sql pg_config) s
            = (distinct cols2 ;; to_sql pg_config) s)
  /\ (forall c1 c2 cs1 cs2,
         same_modifier c1 c2 = true ->
         history (cs1 ++ c1 :: cs2 ++ [c2]) s
         = history (cs1 ++ cs2 ++ [c2]) s)
  /\ (forall cs column table direction,
         _order_by (history (cs ++ [CallOrderBy column table direction]) s)
         = Some (order_by_clause (or_base table (_table_name s)) column
                                 direction))
  /\ (forall cs column table,
         _group_by (history (cs ++ [CallGroupBy column table]) s)
         = Some (group_by_clause (or_base table (_table_name s)) column))
  /\ (forall cs v,
         _limit (history (cs ++ [CallLimit v]) s) = Some (limit_clause v))
  /\ (forall cs v,
         _offset (history (cs ++ [CallOffset v]) s) = Some (offset_clause v))
  /\ (forall cs columns,
         _distinct (history (cs ++ [CallDistinct columns]) s)
         = Some (distinct_clause columns)).
Proof.
  split; [|split; [|split; [|split; [|split; [|split; [|split; [|split;
    [|split; [|split]]]]]]]]]; intros.
  - split; reflexivity.
  - split; reflexivity.
  - split; reflexivity.
  - split; reflexivity.
  - destruct cols1, cols2; split; reflexivity.
  - now apply same_modifier_overwritten.
  - rewrite history_snoc. simpl. now rewrite table_name_history_from.
  - rewrite history_snoc. simpl. now rewrite table_name_history_from.
  - rewrite history_snoc. reflexivity.
  - rewrite history_snoc. reflexivity.
  - rewrite history_snoc. reflexivity.
Qed.

Lemma c8_last_call_wins_witness :
  let s := Select_init "users" in
  history ([CallLimit (PInt 5)]
           ++ CallOrderBy "name" None "ASC"
              :: [CallWhere None id_equals_5; CallLimit (PInt 10)]
                 ++ [CallOrderBy "id" (Some "users") "DESC"]) s
  = history ([CallLimit (PInt 5)]
             ++ [CallWhere None id_equals_5; CallLimit (PInt 10)]
                ++ [CallOrderBy "id" (Some "users") "DESC"]) s.
Proof.
  intros s.
  destruct (c8_last_call_wins s users_catalog)
    as (_ & _ & _ & _ & _ & H & _).
  exact (H (CallOrderBy "name" None "ASC")
           (CallOrderBy "id" (Some "users") "DESC")
           [CallLimit (PInt 5)]
           [CallWhere None id_equals_5; CallLimit (PInt 10)] eq_refl).
Defined.

(** *** C9: rendering reads only *)

Lemma history_without_renders cs : forall s,
  history cs s = history (filter (fun c => negb (is_render c)) cs) s.
Proof.
  induction cs as [|c cs IH]; intros s; [reflexivity|].
  rewrite history_cons. cbn [filter].
  destruct (is_render c) eqn:Hc; cbn [negb].
  - destruct c; try discriminate; apply IH.
  - rewrite history_cons. apply IH.
Qed.

(** C9: [to_sql] and [get_params] leave every attribute of the builder as
    it was; a computation that follows them runs as it does without them,
    rendering twice gives the same statement, and a sequence of calls
    leaves the builder as the same sequence without its rendering calls
    does. *)
Theorem c9_rendering_reads_only pg_config s :
  exec (to_sql pg_config) s = s
  /\ exec get_params s = s
  /\ (forall A (m : M A), (to_sql pg_config ;; m) s = m s)
  /\ (forall A (m : M A), (get_params ;; m) s = m s)
  /\ (to_sql pg_config ;; to_sql pg_config) s = to_sql pg_config s
  /\ (forall cs,
         history cs s = history (filter (fun c => negb (is_render c)) cs) s).
Proof.
  split; [|split; [|split; [|split; [|split]]]].
  - unfold exec. now rewrite to_sql_run.
  - unfold exec. now rewrite get_params_run.
  - intros A m. unfold bind. now rewrite to_sql_run.
  - intros A m. unfold bind. now rewrite get_params_run.
  - unfold bind. rewrite to_sql_run. cbv beta iota. apply to_sql_run.
  - intros cs. apply history_without_renders.
Qed.

(** *** C10: the direction of order_by *)

(** C10: [order_by] accepts every direction and never raises; its clause
    is ORDER BY, the table and the column as quoted identifiers, and the
    direction as it was given; the statement of [to_sql] holds this clause,
    direction included, between the where part and the group-by part; the
    default direction is ASC. *)
Theorem c10_direction_verbatim s column table direction pg_config :
  let s' := exec (order_by column table direction) s in
  value (order_by column table direction) s = Ok tt
  /\ _order_by s'
     = Some (Composed [SQL "ORDER BY ";
                       Identifier [or_base table (_table_name s)];
                       SQL "."; Identifier [column]; SQL " "; SQL direction])
  /\ as_string (clause (_order_by s'))
     = ("ORDER BY " ++ quote_ident (or_base table (_table_name s)) ++ "."
        ++ quote_ident column ++ " " ++ direction)%string
  /\ (exists command,
         value (to_sql pg_config) s' = Ok command
         /\ as_string command
            = ("SELECT " ++ as_string (projection pg_config s)
               ++ " FROM " ++ quote_ident (_table_name s)
               ++ " " ++ as_string (join_clause s)
               ++ " " ++ as_string (where_clause s)
               ++ " " ++ ("ORDER BY "
                          ++ quote_ident (or_base table (_table_name s))
                          ++ "." ++ quote_ident column ++ " " ++ direction)
               ++ " " ++ as_string (clause (_group_by s))
               ++ " " ++ as_string (clause (_offset s))
               ++ " " ++ as_string (clause (_limit s)))%string)
  /\ default_direction = "ASC".
Proof.
  intros s'. unfold s', exec, value. rewrite order_by_run. simpl.
  split; [reflexivity|]. split; [reflexivity|]. split; [reflexivity|].
  split; [|reflexivity].
  eexists. rewrite to_sql_run. split; [reflexivity|].
  unfold rendered. rewrite as_string_statement. reflexivity.
Qed.

(** * Further properties of the builder *)

(** *** The table of a builder *)

(** X1: the table name given to the constructor is what [table_name]
    returns after any sequence of calls; no method assigns it. *)
Theorem table_name_is_constant cs s t :
  value table_name (history cs s) = Ok (_table_name s)
  /\ value table_name (history cs (Select_init t)) = Ok t.
Proof.
  assert (H : forall s0, _table_name (history cs s0) = _table_name s0).
  { intros s0.
    apply (history_invariant (fun s' => _table_name s' = _table_name s0));
      [|reflexivity].
    intros c s' Hs'. now rewrite table_name_effect. }
  unfold value, table_name, attr. simpl. rewrite !H. split; reflexivity.
Qed.

(** *** A filter call that raises *)

(** X2: when [where], [where_and] or [where_or] raises, the exception is
    the one of the construction of the new node, and the builder is as it
    was before the call: the root is assigned only after the node was
    built. *)
Theorem failed_filter_call_changes_nothing s w kwargs e :
  (value (where_ w kwargs) s = Raise e ->
   exec (where_ w kwargs) s = s
   /\ Where_init w (with_table (_table_name s) kwargs) = Raise e)
  /\ (value (where_and w kwargs) s = Raise e ->
      exec (where_and w kwargs) s = s
      /\ Where_init w (with_table (_table_name s) kwargs) = Raise e)
  /\ (value (where_or w kwargs) s = Raise e ->
      exec (where_or w kwargs) s = s
      /\ Where_init w (with_table (_table_name s) kwargs) = Raise e).
Proof.
  unfold value, exec. rewrite where_run, where_and_run, where_or_run.
  unfold filter_run.
  destruct (Where_init w (with_table (_table_name s) kwargs)) as [new|e'];
    simpl; (split; [|split]); intros Hraise; try discriminate;
    inversion Hraise; subst; split; reflexivity.
Qed.

Lemma failed_filter_call_changes_nothing_witness :
  let kwargs := mkWhereKwargs None (Some "id") (Some "=") None in
  let s := history [CallLimit (PInt 10)] (Select_init "users") in
  exec (where_or None kwargs) s = s
  /\ Where_init None (with_table (_table_name s) kwargs) = Raise InvalidFilter.
Proof.
  intros kwargs s.
  destruct (failed_filter_call_changes_nothing s None kwargs InvalidFilter)
    as (_ & _ & H).
  exact (H eq_refl).
Defined.

(** *** Calls on different attributes *)

Ltac split_runs :=
  unfold join_run, filter_run; cbn;
  repeat match goal with
         | |- context [match ?x with _ => _ end] =>
             lazymatch x with
             | context [match _ with _ => _ end] => fail
             | _ => destruct x eqn:?; cbn
             end
         end;
  try reflexivity;
  try (unfold set_join, set_where, set_order_by, set_distinct, set_limit,
         set_offset, set_group_by; cbn; congruence).

Lemma effect_commute c1 c2 s :
  same_target c1 c2 = false ->
  effect c1 (effect c2 s) = effect c2 (effect c1 s).
Proof.
  intros H.
  destruct c1, c2; simpl in H; try discriminate; simpl; split_runs.
Qed.

(** X3: two adjacent calls that assign different attributes, or of which
    one is a rendering call, can be exchanged anywhere in a sequence of
    calls without changing the builder that results. *)
Theorem calls_on_different_attributes_commute c1 c2 cs1 cs2 s :
  same_target c1 c2 = false ->
  history (cs1 ++ c1 :: c2 :: cs2) s = history (cs1 ++ c2 :: c1 :: cs2) s.
Proof.
  intros H. rewrite !history_app, !history_cons.
  now rewrite (effect_commute c2 c1) by
    (unfold same_target in *; destruct (target c1), (target c2);
     try reflexivity; destruct a, a0; try reflexivity; discriminate).
Qed.

Lemma calls_on_different_attributes_commute_witness :
  history ([CallWhere None id_equals_5]
           ++ CallLimit (PInt 10) :: CallOrderBy "id" None "DESC"
              :: [CallOffset (PInt 20)]) (Select_init "users")
  = history ([CallWhere None id_equals_5]
             ++ CallOrderBy "id" None "DESC" :: CallLimit (PInt 10)
                :: [CallOffset (PInt 20)]) (Select_init "users").
Proof.
  exact (@calls_on_different_attributes_commute
           (CallLimit (PInt 10)) (CallOrderBy "id" None "DESC")
           [CallWhere None id_equals_5] [CallOffset (PInt 20)]
           (Select_init "users") eq_refl).
Defined.

(** *** Attributes stay set *)

Ltac stays_set :=
  let j := fresh "j" in
  let w := fresh "w" in
  let kw := fresh "kw" in
  let s := fresh "s" in
  let H := fresh "H" in
  intros [j kw|w kw|w kw|w kw| | | | | | |] s H; simpl;
  try assumption; try reflexivity;
  [ destruct (join_run_cases j kw s) as [->|[? ->]]
  | destruct (filter_run_cases AND w kw s) as [->|[? ->]]
  | destruct (filter_run_cases AND w kw s) as [->|[? ->]]
  | destruct (filter_run_cases OR w kw s) as [->|[? ->]] ];
  simpl; try assumption; reflexivity.

Lemma join_stays_set : forall c s,
  is_set (_join s) = true -> is_set (_join (effect c s)) = true.
Proof. stays_set. Qed.

Lemma where_stays_set : forall c s,
  is_set (_where s) = true -> is_set (_where (effect c s)) = true.
Proof. stays_set. Qed.

Lemma order_by_stays_set : forall c s,
  is_set (_order_by s) = true -> is_set (_order_by (effect c s)) = true.
Proof. stays_set. Qed.

Lemma group_by_stays_set : forall c s,
  is_set (_group_by s) = true -> is_set (_group_by (effect c s)) = true.
Proof. stays_set. Qed.

Lemma limit_stays_set : forall c s,
  is_set (_limit s) = true -> is_set (_limit (effect c s)) = true.
Proof. stays_set. Qed.

Lemma offset_stays_set : forall c s,
  is_set (_offset s) = true -> is_set (_offset (effect c s)) = true.
Proof. stays_set. Qed.

Lemma distinct_stays_set : forall c s,
  is_set (_distinct s) = true -> is_set (_distinct (effect c s)) = true.
Proof. stays_set. Qed.

(** X4: no method sets an attribute back to [None]: a join, a filter, an
    ordering, a grouping, a limit, an offset or a distinct setting that a
    builder has is still there, possibly replaced, after any sequence of
    calls. *)
Theorem attributes_are_never_unset cs s :
  (is_set (_join s) = true -> is_set (_join (history cs s)) = true)
  /\ (is_set (_where s) = true -> is_set (_where (history cs s)) = true)
  /\ (is_set (_order_by s) = true -> is_set (_order_by (history cs s)) = true)
  /\ (is_set (_group_by s) = true -> is_set (_group_by (history cs s)) = true)
  /\ (is_set (_limit s) = true -> is_set (_limit (history cs s)) = true)
  /\ (is_set (_offset s) = true -> is_set (_offset (history cs s)) = true)
  /\ (is_set (_distinct s) = true -> is_set (_distinct (history cs s)) = true).
Proof.
  repeat split; intros H.
  - apply (history_invariant (fun s => is_set (_join s) = true) join_stays_set);
      assumption.
  - apply (history_invariant (fun s => is_set (_where s) = true)
                             where_stays_set); assumption.
  - apply (history_invariant (fun s => is_set (_order_by s) = true)
                             order_by_stays_set); assumption.
  - apply (history_invariant (fun s => is_set (_group_by s) = true)
                             group_by_stays_set); assumption.
  - apply (history_invariant (fun s => is_set (_limit s) = true)
                             limit_stays_set); assumption.
  - apply (history_invariant (fun s => is_set (_offset s) = true)
                             offset_stays_set); assumption.
  - apply (history_invariant (fun s => is_set (_distinct s) = true)
                             distinct_stays_set); assumption.
Qed.

Lemma attributes_are_never_unset_witness :
  let s := history [CallLimit (PInt 10); CallWhere None id_equals_5]
                   (Select_init "users") in
  let cs := [CallOffset (PInt 3); CallWhereOr None id_equals_5;
             CallLimit (PInt 2); CallToSql users_catalog] in
  is_set (_where (history cs s)) = true
  /\ is_set (_limit (history cs s)) = true.
Proof.
  intros s cs.
  destruct (attributes_are_never_unset cs s) as (_ & Hw & _ & _ & Hl & _).
  exact (conj (Hw eq_refl) (Hl eq_refl)).
Defined.

(** *** Each part of the statement and its own calls *)

Lemma agree_other_call a c s s' :
  assigns a c = false -> agree a s s' -> agree a (effect c s) s'.
Proof.
  intros Hc [Ht Ha]. split; [now rewrite table_name_effect|].
  destruct c as [j kw|w kw|w kw|w kw| | | | | | |];
    destruct a; try discriminate; simpl; try assumption;
    first [ destruct (join_run_cases j kw s) as [->|[? ->]]
          | destruct (filter_run_cases AND w kw s) as [->|[? ->]]
          | destruct (filter_run_cases OR w kw s) as [->|[? ->]] ];
    assumption.
Qed.

Lemma agree_own_call a c s s' :
  assigns a c = true -> agree a s s' -> agree a (effect c s) (effect c s').
Proof.
  intros Hc [Ht Ha]. split; [now rewrite !table_name_effect|].
  destruct c as [j kw|w kw|w kw|w kw| | | | | | |];
    destruct a; try discriminate; simpl;
    try (now rewrite Ht); try reflexivity.
  - unfold join_run. rewrite Ha. destruct (_join s') as [self_join|] eqn:Hs'.
    + destruct (Join_join _ _ _); simpl; congruence.
    + destruct (Join_init _ _); simpl; congruence.
  - unfold filter_run. rewrite Ht.
    destruct (Where_init _ _); simpl; congruence.
  - unfold filter_run. rewrite Ht.
    destruct (Where_init _ _); simpl; congruence.
  - unfold filter_run. rewrite Ht.
    destruct (Where_init _ _); simpl; congruence.
Qed.

Lemma agree_history a cs : forall s s',
  agree a s s' -> agree a (history cs s) (history (filter (assigns a) cs) s').
Proof.
  induction cs as [|c cs IH]; intros s s' H; [exact H|].
  rewrite history_cons. cbn [filter].
  destruct (assigns a c) eqn:Hc.
  - rewrite history_cons. now apply IH, agree_own_call.
  - now apply IH, agree_other_call.
Qed.

Lemma agree_refl a s : agree a s s.
Proof. split; [reflexivity|]. destruct a; reflexivity. Qed.

(** X5: what [to_sql] and [get_params] read from an attribute after a
    sequence of calls is what they read after the calls of that sequence
    that assign this attribute, the others left out: the bound parameters
    and the WHERE fragment depend on the filter calls alone, the joined
    tables on the join calls alone, and no modifier changes another's
    clause. *)
Theorem each_part_depends_on_its_own_calls a cs s :
  part a (history cs s) = part a (history (filter (assigns a) cs) s)
  /\ value get_params (history cs s)
     = value get_params (history (filter (assigns AWhere) cs) s)
  /\ joined_tables (history cs s)
     = joined_tables (history (filter (assigns AJoin) cs) s).
Proof.
  split; [|split].
  - destruct (@agree_history a cs s s (agree_refl a s)) as [_ H].
    destruct a; unfold part, join_clause, where_clause; now rewrite H.
  - destruct (@agree_history AWhere cs s s (agree_refl AWhere s)) as [_ H].
    unfold value. rewrite !get_params_run. unfold params_of. simpl.
    simpl in H. now rewrite H.
  - destruct (@agree_history AJoin cs s s (agree_refl AJoin s)) as [_ H].
    unfold joined_tables. simpl in H. now rewrite H.
Qed.

(** *** Limit and offset *)

Lemma limit_history cs : forall s,
  _limit (history cs s)
  = fold_left (fun last c =>
                 match c with
                 | CallLimit v => Some (limit_clause v)
                 | _ => last
                 end) cs (_limit s).
Proof.
  induction cs as [|c cs IH]; intros s; [reflexivity|].
  rewrite history_cons, IH. simpl. f_equal.
  destruct (is_limit c) eqn:Hc.
  - destruct c; try discriminate. reflexivity.
  - rewrite limit_frame by assumption. destruct c; try discriminate; reflexivity.
Qed.

Lemma offset_history cs : forall s,
  _offset (history cs s)
  = fold_left (fun last c =>
                 match c with
                 | CallOffset v => Some (offset_clause v)
                 | _ => last
                 end) cs (_offset s).
Proof.
  induction cs as [|c cs IH]; intros s; [reflexivity|].
  rewrite history_cons, IH. simpl. f_equal.
  destruct (is_offset c) eqn:Hc.
  - destruct c; try discriminate. reflexivity.
  - rewrite offset_frame by assumption. destruct c; try discriminate; reflexivity.
Qed.

Lemma last_limit_clause cs : forall last,
  fold_left (fun last c =>
               match c with
               | CallLimit v => Some (limit_clause v)
               | _ => last
               end) cs (option_map limit_clause last)
  = option_map limit_clause
      (fold_left (fun last c =>
                    match c with
                    | CallLimit v => Some v
                    | _ => last
                    end) cs last).
Proof.
  induction cs as [|c cs IH]; intros last; [reflexivity|].
  simpl. rewrite <- IH. destruct c; reflexivity.
Qed.

Lemma last_offset_clause cs : forall last,
  fold_left (fun last c =>
               match c with
               | CallOffset v => Some (offset_clause v)
               | _ => last
               end) cs (option_map offset_clause last)
  = option_map offset_clause
      (fold_left (fun last c =>
                    match c with
                    | CallOffset v => Some v
                    | _ => last
                    end) cs last).
Proof.
  induction cs as [|c cs IH]; intros last; [reflexivity|].
  simpl. rewrite <- IH. destruct c; reflexivity.
Qed.

Lemma percent_free_uint d : percent_free (NilEmpty.string_of_uint d) = true.
Proof. induction d; simpl; try assumption; reflexivity. Qed.

Lemma percent_free_int z : percent_free (adapt (PInt z)) = true.
Proof.
  assert (H : forall d, percent_free (NilZero.string_of_int d) = true).
  { intros [d|d]; simpl.
    - destruct d; try reflexivity; apply (percent_free_uint (_ d)).
    - destruct d; try reflexivity; apply (percent_free_uint (_ d)). }
  unfold adapt. destruct (z <? 0)%Z; [simpl|]; apply H.
Qed.

(** X6: after any sequence of calls on a new builder, the limit part of
    the statement is LIMIT followed by the literal of the value of the last
    call of [limit], and the empty text when [limit] was not called; the
    same holds of OFFSET and [offset]; when that value is an integer the
    part has no % character, so it adds no marker to the text. *)
Theorem limit_and_offset_show_their_last_value t cs :
  let s := history cs (Select_init t) in
  as_string (clause (_limit s))
  = match last_limit cs with
    | Some v => ("LIMIT " ++ adapt v)%string
    | None => EmptyString
    end
  /\ as_string (clause (_offset s))
     = match last_offset cs with
       | Some v => ("OFFSET " ++ adapt v)%string
       | None => EmptyString
       end
  /\ (forall z, last_limit cs = Some (PInt z) ->
                percent_free (as_string (clause (_limit s))) = true)
  /\ (forall z, last_offset cs = Some (PInt z) ->
                percent_free (as_string (clause (_offset s))) = true).
Proof.
  intros s.
  assert (Hl : as_string (clause (_limit s))
               = match last_limit cs with
                 | Some v => ("LIMIT " ++ adapt v)%string
                 | None => EmptyString
                 end).
  { unfold s. rewrite limit_history.
    change (_limit (Select_init t)) with (option_map limit_clause None).
    rewrite last_limit_clause. fold (last_limit cs).
    destruct (last_limit cs); reflexivity. }
  assert (Ho : as_string (clause (_offset s))
               = match last_offset cs with
                 | Some v => ("OFFSET " ++ adapt v)%string
                 | None => EmptyString
                 end).
  { unfold s. rewrite offset_history.
    change (_offset (Select_init t)) with (option_map offset_clause None).
    rewrite last_offset_clause. fold (last_offset cs).
    destruct (last_offset cs); reflexivity. }
  split; [exact Hl|]. split; [exact Ho|]. split.
  - intros z Hz. rewrite Hl, Hz. apply percent_free_int.
  - intros z Hz. rewrite Ho, Hz. apply percent_free_int.
Qed.

Lemma limit_and_offset_show_their_last_value_witness :
  let cs := [CallLimit (PInt 5); CallOffset (PInt (-3)); CallLimit (PInt 10)] in
  let s := history cs (Select_init "users") in
  percent_free (as_string (clause (_limit s))) = true
  /\ percent_free (as_string (clause (_offset s))) = true.
Proof.
  intros cs s.
  destruct (limit_and_offset_show_their_last_value "users" cs)
    as (_ & _ & Hl & Ho).
  exact (conj (Hl 10%Z eq_refl) (Ho (-3)%Z eq_refl)).
Defined.

(** *** Distinct and the catalog *)

Lemma distinct_set_after cs : forall s,
  existsb is_distinct cs = true -> is_set (_distinct (history cs s)) = true.
Proof.
  induction cs as [|c cs IH]; intros s H; [discriminate|].
  rewrite history_cons. simpl in H.
  destruct (is_distinct c) eqn:Hc.
  - apply (history_invariant (fun s => is_set (_distinct s) = true)
                             distinct_stays_set).
    destruct c; try discriminate. reflexivity.
  - now apply IH.
Qed.

(** X7: once [distinct] was called, the statement of [to_sql] is the same
    under every column catalog: the columns of the base table and of the
    joined tables are not part of it. *)
Theorem distinct_statement_ignores_the_catalog cs s pg_config pg_config' :
  existsb is_distinct cs = true ->
  value (to_sql pg_config) (history cs s)
  = value (to_sql pg_config') (history cs s).
Proof.
  intros H. apply (distinct_set_after cs s) in H.
  unfold value. rewrite !to_sql_run. simpl.
  unfold rendered, projection.
  destruct (_distinct (history cs s)); [reflexivity|discriminate].
Qed.

Lemma distinct_statement_ignores_the_catalog_witness :
  let cs := [CallJoin None (Some orders_of_user);
             CallDistinct (ManyColumns ["name"; "id"]);
             CallLimit (PInt 10)] in
  value (to_sql users_catalog) (history cs (Select_init "users"))
  = value (to_sql shop_catalog) (history cs (Select_init "users")).
Proof.
  intros cs.
  exact (@distinct_statement_ignores_the_catalog
           cs (Select_init "users") users_catalog shop_catalog eq_refl).
Defined.

(** *** Execution *)



(** *** The parameters of a new filter *)

(** X11: a filter call that builds the node [new] puts the parameters of
    [new] after those the builder had: the list of [get_params] grows at
    its end only, so the position of every earlier parameter is kept, for
    [where], [where_and] and [where_or] alike. *)
Theorem new_filter_parameters_come_last s w kwargs new :
  Where_init w (with_table (_table_name s) kwargs) = Ok new ->
  value (where_ w kwargs ;; get_params) s
  = Ok (params_of s ++ Where_params new)
  /\ value (where_and w kwargs ;; get_params) s
     = Ok (params_of s ++ Where_params new)
  /\ value (where_or w kwargs ;; get_params) s
     = Ok (params_of s ++ Where_params new).
Proof.
  intros Hnew. unfold value, bind.
  rewrite where_run, where_and_run, where_or_run. unfold filter_run.
  rewrite Hnew. cbv beta iota. rewrite !get_params_run.
  unfold params_of, grow. simpl.
  destruct (_where s); repeat split.
Qed.

Lemma new_filter_parameters_come_last_witness :
  let s := history [CallWhere None id_equals_5] (Select_init "users") in
  let kwargs := mkWhereKwargs (Some "orders") (Some "total") (Some ">")
                              (Some (PInt 100)) in
  value (where_or None kwargs ;; get_params) s = Ok [PInt 5; PInt 100].
Proof.
  intros s kwargs.
  destruct (@new_filter_parameters_come_last
              s None kwargs (Leaf "orders" "total" ">" (PInt 100)) eq_refl)
    as (_ & _ & H).
  exact H.
Defined.
